(** * react-typescript-practice: the string katas and the debounce utility

    A shallow embedding of
      - [firstDupElem], [uniqElem] and [uniqChars] (problems/techProblems.ts),
      - [debounce]                      (src/utils/debounce.ts),
      - the suggestion filter           (components/Autocomplete.tsx),
      - the debounce, the throttle and the tasks reducer of the notes,
      - the photo selection             (script.js),
    together with the host facilities they rely on (JavaScript strings, [Set],
    plain objects used as maps, [setTimeout]/[clearTimeout]), and the
    properties of these functions. *)

From Stdlib Require Import ZArith NArith List Lia String Ascii.
From stdpp Require Import base list gmap sets relations.

(** ** JavaScript strings

    A JavaScript string is a sequence of UTF-16 code units.  [s.length] counts
    code units and [s[i]] is the one-unit string at index [i]; [for (x of s)]
    walks the string by code points, so a leading surrogate directly followed
    by a trailing surrogate comes out as one two-unit string. *)

Module JsString.

Abbreviation code_unit := N (only parsing).
Abbreviation js_string := (list N) (only parsing).

Definition is_leading_surrogate (c : code_unit) : bool :=
  ((0xD800 <=? c) && (c <=? 0xDBFF))%N.

Definition is_trailing_surrogate (c : code_unit) : bool :=
  ((0xDC00 <=? c) && (c <=? 0xDFFF))%N.

(** The values produced by [String.prototype[Symbol.iterator]], in order. *)
Fixpoint string_iterator (str : js_string) : list js_string :=
  match str with
  | [] => []
  | c :: rest =>
      match rest with
      | d :: rest' =>
          if is_leading_surrogate c && is_trailing_surrogate d
          then [c; d] :: string_iterator rest'
          else [c] :: string_iterator rest
      | [] => [[c]]
      end
  end.

(** A surrogate pair somewhere in the string. *)
Fixpoint has_surrogate_pair (str : js_string) : bool :=
  match str with
  | [] => false
  | c :: rest =>
      match rest with
      | d :: _ =>
          (is_leading_surrogate c && is_trailing_surrogate d)
          || has_surrogate_pair rest
      | [] => false
      end
  end.

(** String literals of the sources that only use ASCII. *)
Fixpoint of_ascii (s : string) : js_string :=
  match s with
  | EmptyString => []
  | String a s' => N_of_ascii a :: of_ascii s'
  end.

(** ToBoolean on the result of a property read whose stored values are
    numbers: [undefined] (absent key) and [0] are falsy. *)
Definition truthy (v : option Z) : bool :=
  match v with
  | None => false
  | Some n => negb (n =? 0)%Z
  end.

End JsString.

(** ** problems/techProblems.ts *)

Module TechProblems.
Import JsString.

(** [firstDupElem]: the loop [for (let i = 0; i < inputStr.length; i++)] run
    from index [i] on the remaining code units, with the [Set] [keymaps] of the
    one-unit strings seen so far (a one-unit string is its code unit).  The
    [console.log] call writes to the console only and is left out. *)
Fixpoint firstDupElem_from (keymaps : gset N) (i : Z) (rest : js_string) : Z :=
  match rest with
  | [] => (-1)%Z
  | c :: rest' =>
      if decide (c ∈ keymaps) then i
      else firstDupElem_from ({[c]} ∪ keymaps) (i + 1)%Z rest'
  end.

Definition firstDupElem (inputStr : js_string) : Z :=
  firstDupElem_from ∅ 0%Z inputStr.

(** [uniqChars]: the loop [for (let s of str)] over the iterator's values with
    the object [uniq] as a map from strings to numbers.  The keys read are one
    code point long, so no property of [Object.prototype] is ever hit. *)
Fixpoint uniqChars_loop (uniq : gmap (list N) Z) (items : list js_string) : bool :=
  match items with
  | [] => true
  | s :: items' =>
      if negb (truthy (uniq !! s))
      then uniqChars_loop (<[s := 1%Z]> uniq) items'
      else false
  end.

Definition uniqChars (str : js_string) : bool :=
  uniqChars_loop ∅ (string_iterator str).

(** Index [i] of [s] holds a code unit that already occurs at a smaller index. *)
Definition repeats_at (s : js_string) (i : nat) : Prop :=
  ∃ (j : nat) (c : N), (j < i)%nat ∧ s !! j = Some c ∧ s !! i = Some c.

(** *** [uniqElem]

    Array elements are numbers; a [Map] compares keys with SameValueZero, so
    [K] stands for the numbers up to that comparison.  A [Map] keeps its keys
    in insertion order and [set] on a key it already has keeps the key's
    place: an association list. *)

Section UniqElem.
Context {K : Type} `{EqDecision K}.

(** [freqMap.get(key)]; [freqMap.has(key)] is true exactly when this is
    defined, as only numbers are stored. *)
Fixpoint map_get (m : list (K * Z)) (key : K) : option Z :=
  match m with
  | [] => None
  | (k, v) :: m' => if decide (k = key) then Some v else map_get m' key
  end.

(** [freqMap.set(key, value)]. *)
Fixpoint map_set (m : list (K * Z)) (key : K) (value : Z) : list (K * Z) :=
  match m with
  | [] => [(key, value)]
  | (k, v) :: m' =>
      if decide (k = key) then (key, value) :: m'
      else (k, v) :: map_set m' key value
  end.

(** The body of the counting loop for one element of [combinedArr]. *)
Definition count_elem (freqMap : list (K * Z)) (x : K) : list (K * Z) :=
  match map_get freqMap x with
  | Some n => map_set freqMap x (n + 1)%Z
  | None => map_set freqMap x 1%Z
  end.

(** [freqMap.forEach((value, key) => { if (value === 1) uniqElem.push(key) })]. *)
Definition keys_seen_once (freqMap : list (K * Z)) : list K :=
  (filter (λ kv, kv.2 = 1%Z) freqMap).*1.

Definition uniqElem (arr1 arr2 : list K) : list K :=
  let combinedArr := arr1 ++ arr2 in
  let freqMap := fold_left count_elem combinedArr [] in
  keys_seen_once freqMap.

(** How often [x] occurs in [l]. *)
Definition occurrences (x : K) (l : list K) : nat :=
  length (filter (λ y, y = x) l).

End UniqElem.

End TechProblems.

(** ** src/utils/debounce.ts

    The host is a single-threaded event loop with [setTimeout] and
    [clearTimeout].  The world below holds the host's clock and timer queue,
    the closure variable [timerId] of one limiter, and what can be observed
    from outside: the invocations of the wrapped action, the host calls the
    limiter made, and the errors that reached the host. *)

Module Debounce.
Local Open Scope Z_scope.

Section Limiter.
(** [Args] is the argument vector [...args]; [Err] the values an action can
    throw. *)
Context {Args Err : Type}.

Inductive completion (T : Type) : Type :=
| Normal (v : T)
| Throw (e : Err).
Global Arguments Normal {T} v.
Global Arguments Throw {T} e.

(** One run of the wrapped action, as far as the limiter is concerned: the
    calls of the wrapper it makes while it runs, in order, and whether it
    then returns or throws. *)
Record behaviour : Type := {
  nested_calls : list Args;
  outcome : completion unit
}.

(** A timer of the host.  The only callback this limiter ever hands to
    [setTimeout] is [() => { func(...args); timerId = null; }], a closure
    that differs from call to call in [args] only, so [t_args] stands for it.
    Handles are positive (a non-zero number or an object): always truthy. *)
Record timer : Type := {
  t_id : positive;
  t_delay : Z;
  t_due : Z;
  t_args : Args
}.

Inductive host_call : Type :=
| SetTimeout (id : positive) (ms : Z) (captured : Args)
| ClearTimeout (id : positive).

Record world : Type := {
  now : Z;
  next_handle : positive;
  pending : list timer;
  timerId : option positive;
  invoked : list (Z * Args);
  host_calls : list host_call;
  uncaught : list Err
}.

(** Computations: they read and write the world, and return or throw. *)
Definition M (T : Type) : Type := world → completion T * world.

Global Instance M_ret : MRet M := λ T v w, (Normal v, w).

Global Instance M_bind : MBind M := λ T U k m w,
  match m w with
  | (Normal v, w') => k v w'
  | (Throw e, w') => (Throw e, w')
  end.

Definition exec {T} (m : M T) (w : world) : world := (m w).2.

Fixpoint for_each {T} (xs : list T) (body : T → M unit) : M unit :=
  match xs with
  | [] => mret tt
  | x :: xs' => body x ;; for_each xs' body
  end.

(** *** The host *)

(** The wait the host makes of the duration it is asked for.  Timer
    handles are of type [NodeJS.Timeout]: the host is Node.js, which keeps
    the duration in 32 bits and sets one below 1 or above 2^31-1 to 1
    millisecond. *)
Definition TIMEOUT_MAX : Z := 2147483647.

Definition timer_duration (ms : Z) : Z :=
  if (ms <? 1) || (TIMEOUT_MAX <? ms) then 1 else ms.

(** [setTimeout(callback, ms)]. *)
Definition setTimeout (captured : Args) (ms : Z) : M positive := λ w,
  let id := next_handle w in
  (Normal id,
   {| now := now w;
      next_handle := Pos.succ id;
      pending := pending w ++
        [{| t_id := id; t_delay := ms;
            t_due := now w + timer_duration ms; t_args := captured |}];
      timerId := timerId w;
      invoked := invoked w;
      host_calls := host_calls w ++ [SetTimeout id ms captured];
      uncaught := uncaught w |}).

(** [clearTimeout(id)]: drops the timer if it is still queued; no effect on
    a handle that has fired or was cleared before. *)
Definition clearTimeout (id : positive) : M unit := λ w,
  (Normal tt,
   {| now := now w;
      next_handle := next_handle w;
      pending := filter (λ t, t_id t ≠ id) (pending w);
      timerId := timerId w;
      invoked := invoked w;
      host_calls := host_calls w ++ [ClearTimeout id];
      uncaught := uncaught w |}).

Definition read_timerId : M (option positive) := λ w, (Normal (timerId w), w).

Definition write_timerId (v : option positive) : M unit := λ w,
  (Normal tt,
   {| now := now w; next_handle := next_handle w; pending := pending w;
      timerId := v;
      invoked := invoked w; host_calls := host_calls w;
      uncaught := uncaught w |}).

Definition record_invocation (args : Args) : M unit := λ w,
  (Normal tt,
   {| now := now w; next_handle := next_handle w; pending := pending w;
      timerId := timerId w;
      invoked := invoked w ++ [(now w, args)];
      host_calls := host_calls w; uncaught := uncaught w |}).

Definition complete (c : completion unit) : M unit := λ w, (c, w).

(** *** debounce *)

Variable func : Args → behaviour.
Variable delay : Z.

(** The returned arrow function [(...args) => { ... }]. *)
Definition wrapper (args : Args) : M unit :=
  id ← read_timerId;
  match id with
  | Some id => clearTimeout id
  | None => mret tt
  end ;;
  id' ← setTimeout args delay;
  write_timerId (Some id').

(** [func(...args)]: the action runs, calling the wrapper as it pleases. *)
Definition apply_func (args : Args) : M unit :=
  record_invocation args ;;
  for_each (nested_calls (func args)) wrapper ;;
  complete (outcome (func args)).

(** The timer callback [() => { func(...args); timerId = null; }]. *)
Definition callback (args : Args) : M unit :=
  apply_func args ;;
  write_timerId None.

(** [debounce(func, delay)]: declares [timerId] (undefined) and returns the
    wrapper; [func] lives on in the callbacks the wrapper hands to the
    host. *)
Definition debounce : M (Args → M unit) :=
  write_timerId None ;;
  mret wrapper.

(** *** The event loop *)

Definition host_start : world :=
  {| now := 0; next_handle := 1%positive; pending := []; timerId := None;
     invoked := []; host_calls := []; uncaught := [] |}.

Definition init : world := exec debounce host_start.

Definition advance_to (T : Z) (w : world) : world :=
  {| now := Z.max (now w) T;
     next_handle := next_handle w; pending := pending w;
     timerId := timerId w; invoked := invoked w;
     host_calls := host_calls w; uncaught := uncaught w |}.

Definition dequeue (t : timer) (w : world) : world :=
  {| now := now w; next_handle := next_handle w;
     pending := filter (λ t', t_id t' ≠ t_id t) (pending w);
     timerId := timerId w; invoked := invoked w;
     host_calls := host_calls w; uncaught := uncaught w |}.

Definition report (e : Err) (w : world) : world :=
  {| now := now w; next_handle := next_handle w; pending := pending w;
     timerId := timerId w; invoked := invoked w;
     host_calls := host_calls w; uncaught := uncaught w ++ [e] |}.

(** The host takes timer [t] off its queue and runs its callback; an error
    that escapes the callback goes to the host's handler. *)
Definition fire (t : timer) (w : world) : world :=
  match callback (t_args t) (dequeue t w) with
  | (Normal _, w') => w'
  | (Throw e, w') => report e w'
  end.

(** What can happen next: somebody calls the wrapper, a due timer fires,
    or time passes. *)
Inductive step : world → world → Prop :=
| step_call (args : Args) (w : world) :
    step w (exec (wrapper args) w)
| step_fire (t : timer) (w : world) :
    t ∈ pending w → t_due t ≤ now w → step w (fire t w)
| step_tick (T : Z) (w : world) :
    step w (advance_to T w).

Definition reachable (w : world) : Prop := rtc step init w.

(** The timer the host fires next: least due time, the one scheduled first
    among equals. *)
Fixpoint earliest (ts : list timer) : option timer :=
  match ts with
  | [] => None
  | t :: ts' =>
      match earliest ts' with
      | Some t' => if t_due t' <? t_due t then Some t' else Some t
      | None => Some t
      end
  end.

(** One schedule among those [step] allows, the punctual one: the clock
    runs to [T] and every timer fires on its due time. *)
Fixpoint run_until (fuel : nat) (T : Z) (w : world) : option world :=
  match fuel with
  | O => None
  | S fuel' =>
      match earliest (pending w) with
      | Some t =>
          if t_due t <=? T
          then run_until fuel' T (fire t (advance_to (t_due t) w))
          else Some (advance_to T w)
      | None => Some (advance_to T w)
      end
  end.

(** Calls of the wrapper at given times on the punctual schedule. *)
Fixpoint run_calls (fuel : nat) (calls : list (Z * Args)) (w : world)
  : option world :=
  match calls with
  | [] => Some w
  | (t, args) :: calls' =>
      w' ← run_until fuel t w;
      run_calls fuel calls' (exec (wrapper args) w')
  end.

Definition scenario (fuel : nat) (calls : list (Z * Args)) (T : Z)
  : option world :=
  w ← run_calls fuel calls init;
  run_until fuel T w.

(** *** Vocabulary for the properties *)

(** The timer a call with [args] puts on the host's queue in world [w]. *)
Definition new_timer (args : Args) (w : world) : timer :=
  {| t_id := next_handle w; t_delay := delay;
     t_due := now w + timer_duration delay; t_args := args |}.

(** What is left of the queue once the wrapper has cleared the timer its
    slot names, and the [clearTimeout] call it makes for that. *)
Definition cancelled (w : world) : list timer :=
  match timerId w with
  | Some id => filter (λ t, t_id t ≠ id) (pending w)
  | None => pending w
  end.

Definition cancellation (w : world) : list host_call :=
  match timerId w with
  | Some id => [ClearTimeout id]
  | None => []
  end.

(** The slot follows the queue: whatever is queued is the timer whose
    handle [timerId] holds. *)
Definition tracked (w : world) : Prop :=
  pending w = [] ∨ ∃ t, pending w = [t] ∧ timerId w = Some (t_id t).

(** The world once the action has run with [args]. *)
Definition after_action (args : Args) (w : world) : world :=
  exec (for_each (nested_calls (func args)) wrapper)
       (exec (record_invocation args) w).

(** Every timer on the queue and every [setTimeout] call carries [delay]. *)
Definition uses_delay (c : host_call) : Prop :=
  match c with
  | SetTimeout _ ms _ => ms = delay
  | ClearTimeout _ => True
  end.

Definition delay_kept (w : world) : Prop :=
  Forall (λ t, t_delay t = delay) (pending w)
  ∧ Forall uses_delay (host_calls w).

(** The [setTimeout] calls among the host calls made so far. *)
Definition is_setTimeout (c : host_call) : bool :=
  match c with
  | SetTimeout _ _ _ => true
  | ClearTimeout _ => false
  end.

Definition set_timeouts (cs : list host_call) : nat :=
  length (filter (λ c, is_setTimeout c) cs).

(** Handles are handed out once: the queued timers have distinct handles,
    all of them, and the one in the slot, below the next handle. *)
Definition handles_fresh (w : world) : Prop :=
  NoDup (t_id <$> pending w)
  ∧ Forall (λ t, (t_id t < next_handle w)%positive) (pending w)
  ∧ ∀ id, timerId w = Some id → (id < next_handle w)%positive.

(** *** Runs with their calls

    [history punctual calls w]: the world [w] is reached from the initial one
    by steps of [step], and [calls] lists the calls of the wrapper made on
    the way, each with the time it was made at.  With [punctual] the host
    has run every timer that was due by the time of each call; without it
    the host runs timers as late as it likes. *)
Definition none_overdue (w : world) : Prop :=
  Forall (λ t, now w < t_due t) (pending w).

Inductive history (punctual : bool) : list (Z * Args) → world → Prop :=
| history_init :
    history punctual [] init
| history_call (args : Args) (calls : list (Z * Args)) (w : world) :
    history punctual calls w →
    (punctual = true → none_overdue w) →
    history punctual (calls ++ [(now w, args)]) (exec (wrapper args) w)
| history_fire (t : timer) (calls : list (Z * Args)) (w : world) :
    history punctual calls w →
    t ∈ pending w → t_due t ≤ now w →
    history punctual calls (fire t w)
| history_tick (T : Z) (calls : list (Z * Args)) (w : world) :
    history punctual calls w →
    history punctual calls (advance_to T w).

(** Every pause between two consecutive calls satisfies [ok]. *)
Fixpoint paced (ok : Z → Prop) (calls : list (Z * Args)) : Prop :=
  match calls with
  | [] => True
  | c :: rest =>
      match rest with
      | [] => True
      | c' :: _ => ok (c'.1 - c.1) ∧ paced ok rest
      end
  end.

(** The calls that are followed by a pause at least as long as the host's
    wait for [delay]: no later call comes in time to cancel them. *)
Fixpoint settled (calls : list (Z * Args)) : list (Z * Args) :=
  match calls with
  | [] => []
  | c :: rest =>
      match rest with
      | [] => []
      | c' :: _ =>
          if timer_duration delay <=? c'.1 - c.1
          then c :: settled rest
          else settled rest
      end
  end.

(** A run of the action answers a call: it has the call's arguments and
    comes no earlier than the host's wait for [delay] after the call. *)
Definition answers (run call : Z * Args) : Prop :=
  run.2 = call.2 ∧ call.1 + timer_duration delay ≤ run.1.

(** The timer of a call is the one thing on the queue, and in the slot. *)
Definition awaits (w : world) (call : Z * Args) : Prop :=
  ∃ tm, pending w = [tm] ∧ timerId w = Some (t_id tm)
        ∧ t_args tm = call.2
        ∧ t_due tm = call.1 + timer_duration delay.

(** *** The debounce of the notes

    The explanatory notes of the repository carry a second debounce, the
    same wrapper with the timer callback [() => { fn(...args); }]: the slot
    is never reset. *)
Definition callback_notes (args : Args) : M unit :=
  apply_func args.

Definition fire_notes (t : timer) (w : world) : world :=
  match callback_notes (t_args t) (dequeue t w) with
  | (Normal _, w') => w'
  | (Throw e, w') => report e w'
  end.

Inductive step_notes : world → world → Prop :=
| step_notes_call (args : Args) (w : world) :
    step_notes w (exec (wrapper args) w)
| step_notes_fire (t : timer) (w : world) :
    t ∈ pending w → t_due t ≤ now w → step_notes w (fire_notes t w)
| step_notes_tick (T : Z) (w : world) :
    step_notes w (advance_to T w).

Definition reachable_notes (w : world) : Prop := rtc step_notes init w.

End Limiter.

Arguments completion : clear implicits.
Arguments behaviour : clear implicits.
Arguments timer : clear implicits.
Arguments world : clear implicits.
Arguments host_call : clear implicits.

(** *** Scenarios *)

(** An action that returns normally and leaves the limiter alone. *)
Definition steady (_ : string) : behaviour string string :=
  {| nested_calls := []; outcome := Normal tt |}.

(** An action that throws. *)
Definition failing (_ : string) : behaviour string string :=
  {| nested_calls := []; outcome := Throw "boom"%string |}.

(** An action that calls the wrapper again while it runs,
    [const d = debounce((again) => { if (again) d(false); }, 100)]. *)
Definition reentrant (again : bool) : behaviour bool string :=
  {| nested_calls := if again then [false] else []; outcome := Normal tt |}.

(** The timer of the first call, with [delay = 100] and the call at time 0. *)
Definition first_timer {Args} (args : Args) : timer Args :=
  {| t_id := 1; t_delay := 100; t_due := 100; t_args := args |}.

(** The run with the re-entrant action:
    [d(true)] at 0; the timer fires at 100 and the action calls [d(false)],
    which queues timer 2; the callback then sets [timerId = null]; a call
    [d(false)] at 150 finds the slot empty and cancels nothing. *)
Definition reentrant_after_firing : world bool string :=
  fire reentrant 100 (first_timer true)
    (advance_to 100 (exec (wrapper 100 true) (init 100))).

Definition reentrant_after_call : world bool string :=
  exec (wrapper 100 false) (advance_to 150 reentrant_after_firing).

(** delay = 100ms; calls at 0, 30 and 60 with [a], [b], [c], the timer
    running at 160. *)
Definition burst_world : world string string :=
  fire steady 100
    {| t_id := 3; t_delay := 100; t_due := 160; t_args := "c"%string |}
    (advance_to 160
       (exec (wrapper 100 "c"%string)
          (advance_to 60
             (exec (wrapper 100 "b"%string)
                (advance_to 30
                   (exec (wrapper 100 "a"%string) (init 100))))))).


(** delay = 100ms; calls at 0 and 150, each timer running when it is due. *)
Definition spaced_world : world string string :=
  fire steady 100
    {| t_id := 2; t_delay := 100; t_due := 250; t_args := "y"%string |}
    (advance_to 250
       (exec (wrapper 100 "y"%string)
          (advance_to 150
             (fire steady 100 (first_timer "x"%string)
                (advance_to 100
                   (exec (wrapper 100 "x"%string) (init 100))))))).

(** The same two calls on a host that runs no timer between them, as when
    both calls are made from one long job. *)
Definition late_host_world : world string string :=
  fire steady 100
    {| t_id := 2; t_delay := 100; t_due := 250; t_args := "y"%string |}
    (advance_to 250
       (exec (wrapper 100 "y"%string)
          (advance_to 150
             (exec (wrapper 100 "x"%string) (init 100))))).

(** delay = 100ms; calls at 0, 30 and 200, timers running when due: the
    call at 30 cancels the one at 0 and is answered at 130, the call at 200
    is answered at 300. *)
Definition mixed_world : world string string :=
  fire steady 100
    {| t_id := 3; t_delay := 100; t_due := 300; t_args := "c"%string |}
    (advance_to 300
       (exec (wrapper 100 "c"%string)
          (advance_to 200
             (fire steady 100
                {| t_id := 2; t_delay := 100; t_due := 130;
                   t_args := "b"%string |}
                (advance_to 130
                   (exec (wrapper 100 "b"%string)
                      (advance_to 30
                         (exec (wrapper 100 "a"%string) (init 100))))))))).

(** The same run shape with the action that throws: call at 0, firing at
    100, call at 150. *)
Definition failing_after_call : world string string :=
  exec (wrapper 100 "y"%string)
    (advance_to 150
       (fire failing 100 (first_timer "x"%string)
          (advance_to 100 (exec (wrapper 100 "x"%string) (init 100))))).

(** The run with the re-entrant action on the debounce of the notes. *)
Definition notes_after_call : world bool string :=
  exec (wrapper 100 false)
    (advance_to 150
       (fire_notes reentrant 100 (first_timer true)
          (advance_to 100 (exec (wrapper 100 true) (init 100))))).

End Debounce.

(** ** components/Autocomplete.tsx

    The action the component hands to [debounce]: it keeps the suggestions
    whose lower-cased text contains the lower-cased input. *)

Module Autocomplete.
Import JsString.

(** [string.indexOf(searchString)], searching from position 0: the first
    position at which [searchString] starts, [-1] if there is none.  The scan
    below is at position [k] of the string, [s] being what is left of it. *)
Fixpoint indexOf_from (k : Z) (s searchString : js_string) : Z :=
  if decide (searchString `prefix_of` s) then k
  else match s with
       | [] => (-1)%Z
       | _ :: s' => indexOf_from (k + 1)%Z s' searchString
       end.

Definition indexOf (s searchString : js_string) : Z :=
  indexOf_from 0%Z s searchString.

Section Filter.
(** [String.prototype.toLowerCase], the host's Unicode case mapping. *)
Variable toLowerCase : js_string → js_string.

(** [suggestions.filter((suggestion) =>
      suggestion.toLowerCase().indexOf(value.toLowerCase()) > -1)]. *)
Definition filtered (suggestions : list js_string) (value : js_string)
  : list js_string :=
  filter
    (λ suggestion,
       (-1 < indexOf (toLowerCase suggestion) (toLowerCase value))%Z)
    suggestions.

End Filter.

(** The case mapping on strings of ASCII characters. *)
Definition ascii_toLowerCase (s : js_string) : js_string :=
  map (λ c, if ((65 <=? c) && (c <=? 90))%N then (c + 32)%N else c) s.

(** The suggestions of routes.tsx. *)
Definition suggestions : list js_string :=
  map of_ascii
    ["Apple"; "Banana"; "Cherry"; "Date"; "Fig"; "Grape"; "Mango"; "Orange"]%string.

End Autocomplete.

(** ** The tasks reducer of the notes

    [tasksReducer] with the actions its creators [addTask] and [removeTask]
    build, and any action of another type.  A task is an object with an [id];
    ids are compared with [!==], the negation of [===]. *)

Module TasksReducer.

Section Reducer.
Context {Id Body : Type}.

(** [a === b] on the values that ids are.  Nothing is assumed of it: a
    value need not be equal to itself, as [NaN] is not. *)
Variable strict_equal : Id → Id → bool.

Record task : Type := { id : Id; body : Body }.

Inductive action : Type :=
| addTask (payload : task)
| removeTask (payload : Id)
| otherAction.

Record state : Type := { tasks : list task }.

Definition initialState : state := {| tasks := [] |}.

(** [(state = initialState, action) => { switch (action.type) ... }]: an
    undefined state stands for the initial one. *)
Definition tasksReducer (s : option state) (a : action) : state :=
  let s := default initialState s in
  match a with
  | addTask payload => {| tasks := tasks s ++ [payload] |}
  | removeTask payload =>
      {| tasks :=
           filter (λ t, negb (strict_equal (id t) payload)) (tasks s) |}
  | otherAction => s
  end.

End Reducer.

Arguments task : clear implicits.
Arguments action : clear implicits.
Arguments state : clear implicits.

(** Ids that are numbers: integers, and [NaN]. *)
Inductive number : Type :=
| NaN
| int (z : Z).

Definition number_strict_equal (a b : number) : bool :=
  match a, b with
  | int x, int y => (x =? y)%Z
  | _, _ => false
  end.

End TasksReducer.

(** ** The throttle of the notes

    [throttle(fn, limit)] next to the second debounce in the notes.  The
    world holds the clock that both [Date.now()] and the host read, the timer
    queue, and the closure variables [lastFunc] and [lastRan].  The action is
    one that does not call the throttled function itself: it returns or
    throws. *)

Module Throttle.
Local Open Scope Z_scope.

Section Limiter.
Context {Args Err : Type}.

Record timer : Type := {
  t_id : positive;
  t_due : Z;
  t_args : Args
}.

Record world : Type := {
  now : Z;
  next_handle : positive;
  pending : list timer;
  lastFunc : option positive;
  lastRan : option Z;
  invoked : list (Z * Args);
  uncaught : list Err
}.

Variable fn : Args → Debounce.completion Err unit.
Variable limit : Z.

(** [fn(...args); lastRan = Date.now();]: the assignment is skipped when
    the action throws. *)
Definition run_fn (args : Args) (w : world)
  : Debounce.completion Err unit * world :=
  match fn args with
  | Debounce.Normal _ =>
      (Debounce.Normal tt,
       {| now := now w; next_handle := next_handle w; pending := pending w;
          lastFunc := lastFunc w;
          lastRan := Some (now w);
          invoked := invoked w ++ [(now w, args)];
          uncaught := uncaught w |})
  | Debounce.Throw e =>
      (Debounce.Throw e,
       {| now := now w; next_handle := next_handle w; pending := pending w;
          lastFunc := lastFunc w;
          lastRan := lastRan w;
          invoked := invoked w ++ [(now w, args)];
          uncaught := uncaught w |})
  end.

(** [clearTimeout(lastFunc); lastFunc = setTimeout(callback,
    limit - (Date.now() - lastRan));] with [lastRan] holding [ran].
    [clearTimeout(undefined)] does nothing; the host makes its wait of the
    duration as for the debounce. *)
Definition reschedule (ran : Z) (args : Args) (w : world) : world :=
  {| now := now w;
     next_handle := Pos.succ (next_handle w);
     pending :=
       match lastFunc w with
       | Some id => filter (λ t, t_id t ≠ id) (pending w)
       | None => pending w
       end
       ++ [{| t_id := next_handle w;
              t_due :=
                now w + Debounce.timer_duration (limit - (now w - ran));
              t_args := args |}];
     lastFunc := Some (next_handle w);
     lastRan := lastRan w;
     invoked := invoked w;
     uncaught := uncaught w |}.

(** The returned function: [if (!lastRan) { ... } else { ... }]; an
    undefined [lastRan] and the number 0 are falsy. *)
Definition wrapper (args : Args) (w : world)
  : Debounce.completion Err unit * world :=
  match lastRan w with
  | None => run_fn args w
  | Some ran =>
      if ran =? 0 then run_fn args w
      else (Debounce.Normal tt, reschedule ran args w)
  end.

(** The timer callback: [if ((Date.now() - lastRan) >= limit) { fn(...args);
    lastRan = Date.now(); }]; with [lastRan] undefined the difference is NaN
    and the test fails. *)
Definition callback (args : Args) (w : world)
  : Debounce.completion Err unit * world :=
  match lastRan w with
  | None => (Debounce.Normal tt, w)
  | Some ran =>
      if limit <=? now w - ran then run_fn args w
      else (Debounce.Normal tt, w)
  end.

Definition init (t0 : Z) : world :=
  {| now := t0; next_handle := 1%positive; pending := [];
     lastFunc := None; lastRan := None; invoked := []; uncaught := [] |}.

Definition advance_to (T : Z) (w : world) : world :=
  {| now := Z.max (now w) T;
     next_handle := next_handle w; pending := pending w;
     lastFunc := lastFunc w; lastRan := lastRan w;
     invoked := invoked w; uncaught := uncaught w |}.

Definition dequeue (t : timer) (w : world) : world :=
  {| now := now w; next_handle := next_handle w;
     pending := filter (λ t', t_id t' ≠ t_id t) (pending w);
     lastFunc := lastFunc w; lastRan := lastRan w;
     invoked := invoked w; uncaught := uncaught w |}.

Definition report (e : Err) (w : world) : world :=
  {| now := now w; next_handle := next_handle w; pending := pending w;
     lastFunc := lastFunc w; lastRan := lastRan w;
     invoked := invoked w; uncaught := uncaught w ++ [e] |}.

Definition fire (t : timer) (w : world) : world :=
  match callback (t_args t) (dequeue t w) with
  | (Debounce.Normal _, w') => w'
  | (Debounce.Throw e, w') => report e w'
  end.

(** What can happen next: a call of the throttled function (an error goes
    to the caller), the host running a queued timer, whenever it does, or
    time passing. *)
Inductive step : world → world → Prop :=
| step_call (args : Args) (w : world) :
    step w (wrapper args w).2
| step_fire (t : timer) (w : world) :
    t ∈ pending w → step w (fire t w)
| step_tick (T : Z) (w : world) :
    step w (advance_to T w).

Definition reachable (t0 : Z) (w : world) : Prop := rtc step (init t0) w.

(** Consecutive runs of the action are at least [limit] apart. *)
Definition spaced (runs : list (Z * Args)) : Prop :=
  ∀ (i : nat) (r1 r2 : Z * Args),
    runs !! i = Some r1 → runs !! S i = Some r2 → limit ≤ r2.1 - r1.1.

End Limiter.

Arguments timer : clear implicits.
Arguments world : clear implicits.

(** Actions for the scenarios. *)
Definition steady (_ : string) : Debounce.completion string unit :=
  Debounce.Normal tt.

Definition failing (_ : string) : Debounce.completion string unit :=
  Debounce.Throw "boom"%string.

(** limit = 1000ms, clock at 5000: a call that runs at once, a call at 5300
    that is put off, and its timer firing at 6000. *)
Definition steady_run : world string string :=
  fire steady 1000
    {| t_id := 1; t_due := 6000; t_args := "b"%string |}
    (advance_to 6000
       (wrapper steady 1000 "b"%string
          (advance_to 5300
             (wrapper steady 1000 "a"%string (init 5000)).2)).2).

(** The same two calls with the action that throws. *)
Definition failing_run : world string string :=
  (wrapper failing 1000 "b"%string
     (advance_to 5300
        (wrapper failing 1000 "a"%string (init 5000)).2)).2.

End Throttle.

(** ** script.js

    The page is the list of its [.thumbnail] elements in document order, each
    with its [data-id] attribute (null when it has none) and whether its
    class list holds [selected]. *)

Module PhotoOrder.
Import JsString.

Record thumbnail : Type := {
  data_id : option (list N);
  selected : bool
}.

(** [thumbnail.classList.toggle('selected')]. *)
Definition toggle (t : thumbnail) : thumbnail :=
  {| data_id := data_id t; selected := negb (selected t) |}.

(** A click on the [k]-th thumbnail runs its listener. *)
Definition click (k : nat) (page : list thumbnail) : list thumbnail :=
  alter toggle k page.

(** The page after a series of clicks, first click first. *)
Definition after_clicks (page : list thumbnail) (clicks : list nat)
  : list thumbnail :=
  fold_left (λ p k, click k p) clicks page.

(** [array.join(separator)]: null elements come out as the empty string. *)
Fixpoint join (separator : js_string) (items : list (option (list N)))
  : js_string :=
  match items with
  | [] => []
  | x :: rest =>
      match rest with
      | [] => default [] x
      | _ :: _ => default [] x ++ separator ++ join separator rest
      end
  end.

(** The listener of the order button: the text it writes to [output]. *)
Definition order_output (page : list thumbnail) : js_string :=
  let selectedThumbnails := filter (λ t, selected t) page in
  let orderedPhotos := data_id <$> selectedThumbnails in
  join (of_ascii ", ") orderedPhotos.

(** How often thumbnail [k] is clicked in a series of clicks. *)
Definition times_clicked (k : nat) (clicks : list nat) : nat :=
  length (filter (λ i, i = k) clicks).

(** Three photos, none selected. *)
Definition three_photos : list thumbnail :=
  [{| data_id := Some (of_ascii "p1"); selected := false |};
   {| data_id := Some (of_ascii "p2"); selected := false |};
   {| data_id := Some (of_ascii "p3"); selected := false |}].

End PhotoOrder.

(** ** Properties of the string katas *)

Module TechProblemsProps.
Import JsString TechProblems.

Example firstDupElem_inputStr : firstDupElem (of_ascii "abcaedf") = 3%Z.
Proof. vm_compute. reflexivity. Qed.

Example firstDupElem_inputStr2 : firstDupElem (of_ascii "hello") = 3%Z.
Proof. vm_compute. reflexivity. Qed.

Example firstDupElem_inputStr3 : firstDupElem (of_ascii "abcdefg") = (-1)%Z.
Proof. vm_compute. reflexivity. Qed.

Example firstDupElem_inputStr4 : firstDupElem (of_ascii "aabbcc") = 1%Z.
Proof. vm_compute. reflexivity. Qed.

Example firstDupElem_inputStr6 :
  firstDupElem (of_ascii "abcdefghijkalmnop") = 11%Z.
Proof. vm_compute. reflexivity. Qed.

Example uniqChars_inputStr : uniqChars (of_ascii "abcaedf") = false.
Proof. vm_compute. reflexivity. Qed.

Example uniqChars_inputStr3 : uniqChars (of_ascii "abcdefg") = true.
Proof. vm_compute. reflexivity. Qed.

(** *** The scan of [firstDupElem] *)

(** Either the scan runs off the end of the string, or it stops at the first
    code unit that is already in [keymaps] or occurred earlier in the scan. *)
Lemma firstDupElem_from_cases (keymaps : gset N) (i : Z) (rest : list N) :
  (firstDupElem_from keymaps i rest = (-1)%Z
   ∧ NoDup rest ∧ ∀ c, c ∈ rest → c ∉ keymaps)
  ∨ (∃ pre c post,
        rest = pre ++ c :: post
        ∧ firstDupElem_from keymaps i rest = (i + Z.of_nat (length pre))%Z
        ∧ NoDup pre
        ∧ (∀ x, x ∈ pre → x ∉ keymaps)
        ∧ (c ∈ keymaps ∨ c ∈ pre)).
Proof.
  revert keymaps i. induction rest as [|c rest IH]; intros keymaps i.
  - left. split; [done|]. split; [constructor|]. intros c Hc. inversion Hc.
  - simpl. destruct (decide (c ∈ keymaps)) as [Hin|Hnin].
    + right. exists [], c, rest. simpl. repeat split.
      * lia.
      * constructor.
      * intros x Hx. inversion Hx.
      * by left.
    + destruct (IH ({[c]} ∪ keymaps) (i + 1)%Z)
        as [(Hr & Hnd & Hfresh) | (pre & d & post & -> & Hr & Hnd & Hfresh & Hd)].
      * left. split; [done|]. split.
        -- constructor; [|done]. intros Hc. apply (Hfresh c Hc), elem_of_union_l.
           by apply elem_of_singleton.
        -- intros x Hx. apply elem_of_cons in Hx as [->|Hx]; [done|].
           intros Hk. apply (Hfresh x Hx). by apply elem_of_union_r.
      * right. exists (c :: pre), d, post. simpl. repeat split.
        -- rewrite Hr. lia.
        -- constructor; [|done]. intros Hc. apply (Hfresh c Hc), elem_of_union_l.
           by apply elem_of_singleton.
        -- intros x Hx. apply elem_of_cons in Hx as [->|Hx]; [done|].
           intros Hk. apply (Hfresh x Hx). by apply elem_of_union_r.
        -- destruct Hd as [Hd|Hd]; [|right; by right].
           apply elem_of_union in Hd as [Hd|Hd]; [|by left].
           apply elem_of_singleton in Hd as ->. right. by left.
Qed.

Lemma NoDup_no_repeat (s : list N) (i : nat) : NoDup s → ¬ repeats_at s i.
Proof.
  intros Hnd (j & c & Hlt & Hj & Hi).
  pose proof (NoDup_lookup s j i c Hnd Hj Hi). lia.
Qed.

(** The stopping index of a scan from the start is the least repeating index. *)
Lemma first_repeat_least (pre post : list N) (c : N) :
  NoDup pre → c ∈ pre →
  repeats_at (pre ++ c :: post) (length pre)
  ∧ ∀ k, (k < length pre)%nat → ¬ repeats_at (pre ++ c :: post) k.
Proof.
  intros Hnd Hc. split.
  - apply list_elem_of_lookup in Hc as [j Hj].
    exists j, c. split; [by eapply lookup_lt_Some|]. split.
    + by apply lookup_app_l_Some.
    + by rewrite list_lookup_middle.
  - intros k Hk (j & d & Hjk & Hj & Hkd).
    rewrite lookup_app_l in Hj by lia. rewrite lookup_app_l in Hkd by lia.
    pose proof (NoDup_lookup pre j k d Hnd Hj Hkd). lia.
Qed.

Lemma firstDupElem_none (s : list N) :
  firstDupElem s = (-1)%Z ↔ NoDup s.
Proof.
  unfold firstDupElem.
  destruct (firstDupElem_from_cases ∅ 0%Z s)
    as [(Hr & Hnd & _) | (pre & c & post & -> & Hr & Hnd & _ & Hc)].
  - by rewrite Hr.
  - destruct Hc as [Hc|Hc]; [by apply not_elem_of_empty in Hc|]. rewrite Hr. split; [lia|].
    intros Hnd'. apply (NoDup_no_repeat _ (length pre)) in Hnd'.
    destruct Hnd'. by apply first_repeat_least.
Qed.

Lemma dup_repeats (s : list N) : ¬ NoDup s → ∃ i, repeats_at s i.
Proof.
  intros Hdup.
  destruct (firstDupElem_from_cases ∅ 0%Z s)
    as [(_ & Hnd & _) | (pre & c & post & -> & _ & Hnd & _ & Hc)]; [done|].
  destruct Hc as [Hc|Hc]; [by apply not_elem_of_empty in Hc|].
  exists (length pre). by apply first_repeat_least.
Qed.

(** C9. For every string [s], [firstDupElem s] is the smallest index [i] whose
    code unit already occurs at some index [j < i], and it is [-1] exactly when
    no code unit of [s] occurs more than once; the result is always [-1] or a
    valid index of [s]. *)
Theorem firstDupElem_least_repeat (s : list N) :
  (∀ i : nat,
      firstDupElem s = Z.of_nat i
      ↔ repeats_at s i ∧ ∀ k, (k < i)%nat → ¬ repeats_at s k)
  ∧ (firstDupElem s = (-1)%Z ↔ NoDup s)
  ∧ (firstDupElem s = (-1)%Z ↔ ∀ i, ¬ repeats_at s i)
  ∧ (-1 ≤ firstDupElem s < Z.of_nat (length s))%Z.
Proof.
  unfold firstDupElem.
  destruct (firstDupElem_from_cases ∅ 0%Z s)
    as [(Hr & Hnd & _) | (pre & c & post & -> & Hr & Hnd & _ & Hc)].
  - rewrite Hr. split; [|split; [|split]].
    + intros i. split; [lia|]. intros [Hrep _]. by apply NoDup_no_repeat in Hrep.
    + done.
    + split; [|done]. intros _ i. by apply NoDup_no_repeat.
    + destruct s; simpl; lia.
  - destruct Hc as [Hc|Hc]; [by apply not_elem_of_empty in Hc|].
    destruct (first_repeat_least pre post c Hnd Hc) as [Hrep Hleast].
    rewrite Hr. split; [|split; [|split]].
    + intros i. split.
      * intros Hi. assert (i = length pre) as -> by lia. done.
      * intros [Hrepi Hleasti].
        destruct (Nat.lt_trichotomy i (length pre)) as [Hlt|[->|Hgt]].
        -- by apply Hleast in Hrepi.
        -- lia.
        -- by apply Hleasti in Hrep.
    + split; [lia|]. intros Hnd'. by apply NoDup_no_repeat with (i := length pre) in Hnd'.
    + split; [lia|]. intros Hno. by apply Hno in Hrep.
    + rewrite length_app. simpl. lia.
Qed.

(** *** The scan of [uniqChars] *)

Lemma truthy_insert_one (uniq : gmap (list N) Z) (s x : list N) :
  truthy (<[s := 1%Z]> uniq !! x) = false ↔ x ≠ s ∧ truthy (uniq !! x) = false.
Proof.
  destruct (decide (s = x)) as [->|Hne].
  - rewrite lookup_insert_eq. simpl. split; [done|]. by intros [? _].
  - rewrite lookup_insert_ne by done. split; [|by intros [_ ?]].
    intros H. split; [congruence|done].
Qed.

Lemma uniqChars_loop_true (uniq : gmap (list N) Z) (items : list (list N)) :
  uniqChars_loop uniq items = true
  ↔ NoDup items ∧ ∀ s, s ∈ items → truthy (uniq !! s) = false.
Proof.
  revert uniq. induction items as [|s items IH]; intros uniq; simpl.
  - split; [|done]. intros _. split; [constructor|]. intros s Hs. inversion Hs.
  - destruct (truthy (uniq !! s)) eqn:Hs; simpl.
    + split; [done|]. intros [_ Hall].
      rewrite Hall in Hs; [done|by left].
    + rewrite IH. split.
      * intros [Hnd Hall]. split.
        -- constructor; [|done]. intros Hin.
           apply Hall, truthy_insert_one in Hin as [? _]. done.
        -- intros x Hx. apply elem_of_cons in Hx as [->|Hx]; [done|].
           by apply Hall, truthy_insert_one in Hx as [_ ?].
      * intros [Hnd Hall]. apply NoDup_cons in Hnd as [Hnin Hnd].
        split; [done|]. intros x Hx. apply truthy_insert_one. split.
        -- intros ->. done.
        -- apply Hall. by right.
Qed.

(** [uniqChars] answers whether the code points of the string are distinct. *)
Lemma uniqChars_true (str : list N) :
  uniqChars str = true ↔ NoDup (string_iterator str).
Proof.
  unfold uniqChars. rewrite uniqChars_loop_true. split; [by intros [? _]|].
  intros Hnd. split; [done|]. intros s _. by rewrite lookup_empty.
Qed.

(** Without surrogate pairs the iterator yields the code units one by one. *)
Lemma string_iterator_units (str : list N) :
  has_surrogate_pair str = false →
  string_iterator str = map (λ c, [c]) str.
Proof.
  induction str as [|c rest IH]; [done|]. simpl.
  destruct rest as [|d rest']; [done|].
  intros Hp. apply orb_false_iff in Hp as [Hcd Hrest].
  rewrite Hcd. f_equal. by apply IH.
Qed.

Lemma string_iterator_step (c d : N) (rest : list N) :
  string_iterator (c :: d :: rest)
  = if is_leading_surrogate c && is_trailing_surrogate d
    then [c; d] :: string_iterator rest
    else [c] :: string_iterator (d :: rest).
Proof. reflexivity. Qed.

(** The iterator cuts the string into non-empty consecutive pieces. *)
Lemma string_iterator_concat (str : list N) :
  concat (string_iterator str) = str
  ∧ Forall (λ piece, piece ≠ []) (string_iterator str).
Proof.
  assert (∀ n (s : list N), (length s ≤ n)%nat →
            concat (string_iterator s) = s
            ∧ Forall (λ piece, piece ≠ []) (string_iterator s)) as Hgen.
  { intros n. induction n as [|n IH]; intros s Hlen.
    - destruct s; [by split|simpl in Hlen; lia].
    - destruct s as [|c [|d rest']]; [by split| |].
      + split; [done|]. by repeat constructor.
      + rewrite string_iterator_step.
        destruct (is_leading_surrogate c && is_trailing_surrogate d).
        * destruct (IH rest') as [Hc Hf]; [simpl in Hlen; lia|].
          split; [|by constructor].
          rewrite concat_cons, Hc. done.
        * destruct (IH (d :: rest')) as [Hc Hf]; [simpl in *; lia|].
          split; [|by constructor].
          rewrite concat_cons, Hc. done. }
  by apply (Hgen (length str)).
Qed.

Lemma NoDup_concat_pieces (pieces : list (list N)) :
  Forall (λ piece, piece ≠ []) pieces → NoDup (concat pieces) → NoDup pieces.
Proof.
  induction pieces as [|x pieces IH]; [constructor|].
  intros Hne Hnd. apply Forall_cons in Hne as [Hx Hne]. simpl in Hnd.
  apply NoDup_app in Hnd as (_ & Hdisj & Hnd).
  constructor; [|by apply IH]. intros Hin.
  destruct x as [|c x]; [done|].
  apply (Hdisj c); [by left|].
  apply list_elem_of_In, in_concat. exists (c :: x).
  split; [by apply list_elem_of_In|by left].
Qed.

(** Distinct code units give distinct code points, on every string. *)
Lemma firstDupElem_none_uniqChars (s : list N) :
  firstDupElem s = (-1)%Z → uniqChars s = true.
Proof.
  intros Hr. apply uniqChars_true.
  destruct (string_iterator_concat s) as [Hc Hne].
  apply NoDup_concat_pieces; [done|]. rewrite Hc.
  by apply firstDupElem_none.
Qed.

(** C10, as amended. On every string without a surrogate pair the two
    detectors agree: [uniqChars s] is [true] exactly when [firstDupElem s] is
    [-1], and it is [false] exactly when some code unit occurs twice. *)
Theorem uniqChars_agrees_without_pairs (s : list N) :
  has_surrogate_pair s = false →
  (uniqChars s = true ↔ firstDupElem s = (-1)%Z)
  ∧ (uniqChars s = false ↔ ∃ i, repeats_at s i).
Proof.
  intros Hp.
  assert (uniqChars s = true ↔ NoDup s) as Hu.
  { rewrite uniqChars_true, string_iterator_units by done.
    split.
    - apply NoDup_fmap_1.
    - apply NoDup_fmap_2. by intros x y [=]. }
  split.
  - by rewrite Hu, firstDupElem_none.
  - split.
    + intros Hf. apply dup_repeats. intros Hnd. apply Hu in Hnd. congruence.
    + intros [i Hi]. destruct (uniqChars s) eqn:E; [|done].
      exfalso. revert Hi. apply NoDup_no_repeat. by apply Hu.
Qed.

Lemma uniqChars_agrees_without_pairs_witness :
  (uniqChars (of_ascii "hello") = true ↔ firstDupElem (of_ascii "hello") = (-1)%Z)
  ∧ (uniqChars (of_ascii "hello") = false ↔ ∃ i, repeats_at (of_ascii "hello") i).
Proof. apply (uniqChars_agrees_without_pairs (of_ascii "hello")). reflexivity. Defined.

(** C10, refuted as stated. Two different astral characters that share their
    leading surrogate (U+1F600 and U+1F601): [uniqChars] sees two distinct code
    points, [firstDupElem] sees the code unit 0xD83D again at index 2. *)
Lemma uniqChars_firstDupElem_disagree :
  ¬ (∀ s : list N, uniqChars s = true ↔ firstDupElem s = (-1)%Z).
Proof.
  intros H.
  specialize (H [0xD83D; 0xDE00; 0xD83D; 0xDE01]%N).
  assert (uniqChars [0xD83D; 0xDE00; 0xD83D; 0xDE01]%N = true) as Hu
    by (vm_compute; reflexivity).
  apply H in Hu. vm_compute in Hu. discriminate Hu.
Qed.

Example astral_uniqChars :
  uniqChars [0xD83D; 0xDE00; 0xD83D; 0xDE01]%N = true
  ∧ firstDupElem [0xD83D; 0xDE00; 0xD83D; 0xDE01]%N = 2%Z.
Proof. split; vm_compute; reflexivity. Qed.

(** *** More on the two scans *)

Lemma repeated_lookup {A} `{EqDecision A} (l : list A) :
  ¬ NoDup l →
  ∃ (i j : nat) (x : A), (i < j)%nat ∧ l !! i = Some x ∧ l !! j = Some x.
Proof.
  induction l as [|a l IH]; intros Hdup; [destruct Hdup; constructor|].
  destruct (decide (a ∈ l)) as [Hin|Hnin].
  - apply list_elem_of_lookup in Hin as [k Hk].
    exists 0%nat, (S k), a. split; [lia|]. by split.
  - destruct IH as (i & j & x & Hij & Hi & Hj).
    { intros Hnd. apply Hdup. by constructor. }
    exists (S i), (S j), x. split; [lia|]. by split.
Qed.

(** X5. [uniqChars] answers [false] exactly when some code point of the
    string, as the string iterator cuts it, comes a second time. *)
Theorem uniqChars_repeated_code_point (s : list N) :
  uniqChars s = false
  ↔ ∃ (i j : nat) (cp : list N),
      (i < j)%nat
      ∧ string_iterator s !! i = Some cp ∧ string_iterator s !! j = Some cp.
Proof.
  split.
  - intros Hf. apply repeated_lookup. intros Hnd.
    apply uniqChars_true in Hnd. congruence.
  - intros (i & j & cp & Hij & Hi & Hj).
    destruct (uniqChars s) eqn:E; [|done].
    apply uniqChars_true in E.
    pose proof (NoDup_lookup _ i j cp E Hi Hj). lia.
Qed.

(** X6. A string in which no code unit repeats has no repeated code point
    either, surrogate pairs or not. *)
Theorem distinct_units_distinct_points (s : list N) :
  firstDupElem s = (-1)%Z → uniqChars s = true.
Proof.
  intros Hr. apply uniqChars_true.
  destruct (string_iterator_concat s) as [Hc Hne].
  apply NoDup_concat_pieces; [done|]. rewrite Hc.
  by apply firstDupElem_none.
Qed.

Lemma distinct_units_distinct_points_witness :
  uniqChars [0xD83D; 0xDE00; 0x61]%N = true.
Proof.
  apply (distinct_units_distinct_points [0xD83D; 0xDE00; 0x61]%N).
  vm_compute. reflexivity.
Defined.

Lemma firstDupElem_from_found (keymaps : gset N) (i : Z)
    (pre : list N) (c : N) (post : list N) :
  NoDup pre → (∀ x, x ∈ pre → x ∉ keymaps) → c ∈ keymaps ∨ c ∈ pre →
  firstDupElem_from keymaps i (pre ++ c :: post)
  = (i + Z.of_nat (length pre))%Z.
Proof.
  revert keymaps i. induction pre as [|a pre IH]; intros keymaps i Hnd Hfresh Hc.
  - simpl. destruct Hc as [Hc|Hc]; [|inversion Hc].
    rewrite decide_True by done. lia.
  - apply NoDup_cons in Hnd as [Ha Hnd]. simpl.
    rewrite decide_False by (apply Hfresh; by left).
    rewrite IH; [lia|done| |].
    + intros x Hx [->%elem_of_singleton|Hk]%elem_of_union; [done|].
      by apply (Hfresh x); [right|].
    + destruct Hc as [Hc|[->|Hc]%elem_of_cons].
      * left. by apply elem_of_union_r.
      * left. by apply elem_of_union_l, elem_of_singleton.
      * by right.
Qed.

(** X7. Once a repeat is found, what follows in the string does not
    matter: appending text leaves the answer where it is. *)
Theorem firstDupElem_append (s t : list N) :
  firstDupElem s ≠ (-1)%Z → firstDupElem (s ++ t) = firstDupElem s.
Proof.
  unfold firstDupElem. intros Hfound.
  destruct (firstDupElem_from_cases ∅ 0%Z s)
    as [(Hr & _) | (pre & c & post & -> & Hr & Hnd & Hfresh & Hc)]; [done|].
  rewrite Hr, <- app_assoc. simpl.
  by apply firstDupElem_from_found.
Qed.

Lemma firstDupElem_append_witness :
  firstDupElem (of_ascii "hello" ++ of_ascii " world")
  = firstDupElem (of_ascii "hello").
Proof.
  apply (firstDupElem_append (of_ascii "hello") (of_ascii " world")).
  vm_compute. discriminate.
Defined.

(** X8. One more character after a string without repeats: the answer is
    the index of that character if it occurs in the string, and still [-1]
    if it does not. *)
Theorem firstDupElem_one_more (s : list N) (c : N) :
  firstDupElem s = (-1)%Z →
  firstDupElem (s ++ [c])
  = if decide (c ∈ s) then Z.of_nat (length s) else (-1)%Z.
Proof.
  intros Hnd%firstDupElem_none.
  destruct (decide (c ∈ s)) as [Hin|Hnin].
  - unfold firstDupElem. rewrite firstDupElem_from_found; [lia|done| |by right].
    intros x _. apply not_elem_of_empty.
  - apply firstDupElem_none, NoDup_app. split; [done|]. split.
    + by intros x Hx ->%list_elem_of_singleton.
    + apply NoDup_singleton.
Qed.

Lemma firstDupElem_one_more_witness :
  firstDupElem (of_ascii "abc" ++ [N_of_ascii "a"])
  = if decide (N_of_ascii "a" ∈ of_ascii "abc")
    then Z.of_nat (length (of_ascii "abc")) else (-1)%Z.
Proof.
  apply (firstDupElem_one_more (of_ascii "abc") (N_of_ascii "a")).
  vm_compute. reflexivity.
Defined.

(** *** The counting of [uniqElem] *)

Section UniqElemFacts.
Context {K : Type} `{EqDecision K}.

Lemma occurrences_app (x : K) (l1 l2 : list K) :
  occurrences x (l1 ++ l2) = (occurrences x l1 + occurrences x l2)%nat.
Proof. unfold occurrences. by rewrite filter_app, length_app. Qed.

Lemma occurrences_cons (x y : K) (l : list K) :
  occurrences x (y :: l)
  = ((if decide (y = x) then 1 else 0) + occurrences x l)%nat.
Proof.
  unfold occurrences. rewrite filter_cons. by destruct (decide (y = x)).
Qed.

Lemma occurrences_singleton (x y : K) :
  occurrences x [y] = if decide (y = x) then 1%nat else 0%nat.
Proof.
  rewrite occurrences_cons. change (occurrences x []) with 0%nat.
  destruct (decide (y = x)); lia.
Qed.

Lemma occurrences_none (x : K) (l : list K) :
  occurrences x l = 0%nat ↔ x ∉ l.
Proof.
  induction l as [|y l IH]; [split; [intros _ Hx; inversion Hx|done]|].
  rewrite occurrences_cons, not_elem_of_cons.
  destruct (decide (y = x)) as [->|Hne]; simpl.
  - split; [lia|]. by intros [? _].
  - rewrite IH. split; [by intros ?; split|by intros [_ ?]].
Qed.

Lemma occurrences_some (x : K) (l : list K) :
  x ∈ l → (1 ≤ occurrences x l)%nat.
Proof.
  intros Hx. destruct (occurrences x l) eqn:E; [|lia].
  by apply occurrences_none in E.
Qed.

Lemma occurrences_NoDup (x : K) (l : list K) :
  NoDup l → occurrences x l = if decide (x ∈ l) then 1%nat else 0%nat.
Proof.
  induction 1 as [|y l Hy Hnd IH]; [done|].
  rewrite occurrences_cons, IH.
  destruct (decide (y = x)) as [->|Hne].
  - rewrite (decide_False (P := x ∈ l)) by done.
    by rewrite (decide_True (P := x ∈ x :: l)) by (by left).
  - destruct (decide (x ∈ l)) as [Hin|Hnin].
    + by rewrite (decide_True (P := x ∈ y :: l)) by (by right).
    + rewrite (decide_False (P := x ∈ y :: l)); [done|].
      by intros [->|?]%elem_of_cons.
Qed.

Lemma map_get_set (m : list (K * Z)) (k k' : K) (v : Z) :
  map_get (map_set m k v) k' = if decide (k = k') then Some v else map_get m k'.
Proof.
  induction m as [|[k0 v0] m IH]; simpl.
  - by destruct (decide (k = k')).
  - destruct (decide (k0 = k)) as [->|Hne]; simpl.
    + by destruct (decide (k = k')).
    + rewrite IH. destruct (decide (k0 = k')) as [->|?]; [|done].
      by rewrite decide_False by congruence.
Qed.

Lemma map_get_None (m : list (K * Z)) (k : K) :
  map_get m k = None ↔ k ∉ m.*1.
Proof.
  induction m as [|[k0 v0] m IH]; simpl.
  - split; [intros _ Hk; inversion Hk|done].
  - rewrite not_elem_of_cons. destruct (decide (k0 = k)) as [->|Hne].
    + split; [done|]. by intros [? _].
    + rewrite IH. split; [intros ?; split; [congruence|done]|by intros [_ ?]].
Qed.

Lemma map_set_new (m : list (K * Z)) (k : K) (v : Z) :
  map_get m k = None → map_set m k v = m ++ [(k, v)].
Proof.
  induction m as [|[k0 v0] m IH]; simpl; [done|].
  destruct (decide (k0 = k)); [done|]. intros Hm. by rewrite IH.
Qed.

Lemma map_set_keys (m : list (K * Z)) (k : K) (n v : Z) :
  map_get m k = Some n → (map_set m k v).*1 = m.*1.
Proof.
  induction m as [|[k0 v0] m IH]; [done|]. cbn [map_set map_get].
  destruct (decide (k0 = k)) as [->|Hne]; [done|].
  intros Hm. by rewrite !fmap_cons, IH.
Qed.

Lemma filter_agree (P Q : K → Prop) `{!∀ x, Decision (P x)}
    `{!∀ x, Decision (Q x)} (l : list K) :
  (∀ x, x ∈ l → (P x ↔ Q x)) → filter P l = filter Q l.
Proof.
  induction l as [|y l IH]; [done|]. intros Hagree.
  rewrite !filter_cons, IH by (intros x Hx; apply Hagree; by right).
  destruct (decide (P y)) as [HP|HP], (decide (Q y)) as [HQ|HQ]; try done.
  - by apply (Hagree y) in HP; [|by left].
  - by apply (Hagree y) in HQ; [|by left].
Qed.

Lemma filter_absent (k : K) (l : list K) :
  k ∉ l → filter (λ y, y ≠ k) l = l.
Proof.
  induction l as [|y l IH]; [done|]. intros [Hne Hl]%not_elem_of_cons.
  rewrite filter_cons_True by congruence. by rewrite IH.
Qed.

Lemma keys_seen_once_cons (k : K) (v : Z) (m : list (K * Z)) :
  keys_seen_once ((k, v) :: m)
  = (if decide (v = 1%Z) then [k] else []) ++ keys_seen_once m.
Proof.
  unfold keys_seen_once. rewrite filter_cons. simpl.
  by destruct (decide (v = 1%Z)).
Qed.

Lemma keys_seen_once_keys (k : K) (m : list (K * Z)) :
  k ∈ keys_seen_once m → k ∈ m.*1.
Proof.
  unfold keys_seen_once. intros Hk.
  apply list_elem_of_fmap in Hk as ([k' v] & -> & Hkv).
  apply list_elem_of_filter in Hkv as [_ Hkv].
  apply list_elem_of_fmap. by exists (k', v).
Qed.

(** Counting a key again takes it off the list of keys seen once. *)
Lemma keys_seen_once_again (m : list (K * Z)) (k : K) (n v : Z) :
  NoDup m.*1 → map_get m k = Some n → v ≠ 1%Z →
  keys_seen_once (map_set m k v) = filter (λ y, y ≠ k) (keys_seen_once m).
Proof.
  induction m as [|[k0 v0] m IH]; simpl; [done|].
  intros [Hk0 Hnd]%NoDup_cons Hget Hv.
  destruct (decide (k0 = k)) as [->|Hne].
  - rewrite !keys_seen_once_cons, decide_False by done. simpl.
    rewrite filter_app.
    replace (filter (λ y, y ≠ k) (if decide (v0 = 1%Z) then [k] else []))
      with (@nil K).
    + simpl. symmetry. apply filter_absent. intros Hk.
      by apply keys_seen_once_keys in Hk.
    + destruct (decide (v0 = 1%Z)); [|done].
      by rewrite filter_cons_False by (intros H'; by apply H').
  - rewrite !keys_seen_once_cons, filter_app, IH by done. f_equal.
    destruct (decide (v0 = 1%Z)); [|done].
    by rewrite filter_cons_True by done.
Qed.

Lemma keys_seen_once_first (m : list (K * Z)) (k : K) :
  keys_seen_once (m ++ [(k, 1%Z)]) = keys_seen_once m ++ [k].
Proof. unfold keys_seen_once. by rewrite filter_app, fmap_app. Qed.

(** After the counting loop has run over [p]: the keys are distinct, each
    element of [p] is counted as often as it occurs, and the keys counted
    once are the elements of [p] that occur once, in the order of [p]. *)
Lemma counting_loop (p : list K) :
  NoDup (fold_left count_elem p []).*1
  ∧ (∀ k, map_get (fold_left count_elem p []) k
          = if decide (k ∈ p) then Some (Z.of_nat (occurrences k p)) else None)
  ∧ keys_seen_once (fold_left count_elem p [])
    = filter (λ y, occurrences y p = 1%nat) p.
Proof.
  induction p as [|x p (Hnd & Hget & Hones)] using rev_ind.
  - split; [constructor|]. split; [|done]. intros k.
    by rewrite decide_False by (intros Hk; inversion Hk).
  - rewrite fold_left_app. simpl. set (m := fold_left count_elem p []) in *.
    unfold count_elem. rewrite (Hget x).
    destruct (decide (x ∈ p)) as [Hin|Hnin].
    + pose proof (occurrences_some x p Hin) as Hpos.
      split; [|split].
      * erewrite map_set_keys; [done|]. rewrite Hget. by rewrite decide_True.
      * intros k. rewrite map_get_set, Hget, occurrences_app.
        destruct (decide (x = k)) as [->|Hne].
        -- rewrite decide_True by (apply elem_of_app; by left).
           f_equal. rewrite occurrences_singleton, decide_True by done. lia.
        -- destruct (decide (k ∈ p)) as [Hk|Hk].
           ++ rewrite decide_True by (apply elem_of_app; by left).
              f_equal. rewrite occurrences_singleton, decide_False by done. lia.
           ++ rewrite decide_False; [done|].
              intros [?|Hx%list_elem_of_singleton]%elem_of_app; congruence.
      * erewrite keys_seen_once_again; [| done | by rewrite Hget, decide_True | lia].
        rewrite Hones, filter_app, list_filter_filter.
        replace (filter (λ y, occurrences y (p ++ [x]) = 1%nat) [x]) with (@nil K).
        -- rewrite app_nil_r. apply list_filter_iff. intros y.
           rewrite occurrences_app, occurrences_singleton.
           destruct (decide (x = y)) as [->|Hne].
           { split; [by intros [? _]|lia]. }
           split.
           ++ intros [_ ?]. lia.
           ++ intros ?. split; [congruence|lia].
        -- rewrite filter_cons_False; [done|].
           rewrite occurrences_app. rewrite occurrences_singleton, decide_True by done. lia.
    + pose proof (proj2 (occurrences_none x p) Hnin) as Hzero.
      assert (map_get m x = None) as Hm by (by rewrite Hget, decide_False).
      rewrite map_set_new by done.
      split; [|split].
      * rewrite fmap_app. apply NoDup_app. split; [done|]. split.
        -- intros k Hk ->%list_elem_of_singleton. by apply map_get_None in Hm.
        -- apply NoDup_singleton.
      * intros k. rewrite <- (map_set_new m x 1%Z Hm), map_get_set, Hget.
        rewrite occurrences_app.
        destruct (decide (x = k)) as [->|Hne].
        -- rewrite decide_True by (apply elem_of_app; right; by left).
           f_equal. rewrite occurrences_singleton, decide_True by done. lia.
        -- destruct (decide (k ∈ p)) as [Hk|Hk].
           ++ rewrite decide_True by (apply elem_of_app; by left).
              f_equal. rewrite occurrences_singleton, decide_False by done. lia.
           ++ rewrite decide_False; [done|].
              intros [?|Hx%list_elem_of_singleton]%elem_of_app; congruence.
      * rewrite keys_seen_once_first, Hones, filter_app. f_equal.
        -- apply filter_agree. intros y Hy.
           rewrite occurrences_app, occurrences_singleton.
           destruct (decide (x = y)) as [->|Hne]; [done|lia].
        -- rewrite filter_cons_True; [done|].
           rewrite occurrences_app. rewrite occurrences_singleton, decide_True by done. lia.
Qed.

(** X1. [uniqElem arr1 arr2] is the concatenation of the two arrays with
    every value that occurs more than once taken out: the values that occur
    exactly once in [arr1 ++ arr2], in the order they have there. *)
Theorem uniqElem_exactly_once (arr1 arr2 : list K) :
  uniqElem arr1 arr2
  = filter (λ x, occurrences x (arr1 ++ arr2) = 1%nat) (arr1 ++ arr2).
Proof.
  unfold uniqElem. cbv zeta.
  by destruct (counting_loop (arr1 ++ arr2)) as (_ & _ & ->).
Qed.

(** X2. On two arrays without repeats the result is their symmetric
    difference: the values of [arr1] that are not in [arr2], followed by the
    values of [arr2] that are not in [arr1]. *)
Theorem uniqElem_symmetric_difference (arr1 arr2 : list K) :
  NoDup arr1 → NoDup arr2 →
  uniqElem arr1 arr2
  = filter (λ x, x ∉ arr2) arr1 ++ filter (λ x, x ∉ arr1) arr2.
Proof.
  intros Hnd1 Hnd2. unfold uniqElem. cbv zeta.
  destruct (counting_loop (arr1 ++ arr2)) as (_ & _ & ->).
  rewrite filter_app. f_equal; apply filter_agree; intros x Hx;
    rewrite occurrences_app, !occurrences_NoDup by done.
  - rewrite decide_True by done. destruct (decide (x ∈ arr2)); [|done].
    split; [lia|done].
  - rewrite (decide_True (P := x ∈ arr2)) by done.
    destruct (decide (x ∈ arr1)); [|done]. split; [lia|done].
Qed.

(** X3. No value comes out twice, whatever the arrays hold. *)
Theorem uniqElem_NoDup (arr1 arr2 : list K) :
  NoDup (uniqElem arr1 arr2).
Proof.
  unfold uniqElem. cbv zeta.
  destruct (counting_loop (arr1 ++ arr2)) as (Hnd & _ & _).
  assert (keys_seen_once (fold_left count_elem (arr1 ++ arr2) [])
            `sublist_of` (fold_left count_elem (arr1 ++ arr2) []).*1) as Hsub
    by (unfold keys_seen_once; apply fmap_sublist, sublist_filter).
  exact (sublist_NoDup _ _ Hnd Hsub).
Qed.

(** X4. Swapping the two arrays changes the order of the result at most. *)
Theorem uniqElem_swap (arr1 arr2 : list K) :
  uniqElem arr1 arr2 ≡ₚ uniqElem arr2 arr1.
Proof.
  unfold uniqElem. cbv zeta.
  destruct (counting_loop (arr1 ++ arr2)) as (_ & _ & ->).
  destruct (counting_loop (arr2 ++ arr1)) as (_ & _ & ->).
  rewrite (filter_agree (λ x, occurrences x (arr1 ++ arr2) = 1%nat)
             (λ x, occurrences x (arr2 ++ arr1) = 1%nat)).
  - apply filter_Permutation, Permutation_app_comm.
  - intros x _. rewrite !occurrences_app. lia.
Qed.

End UniqElemFacts.

(** The arrays of routes.tsx. *)
Lemma uniqElem_routes_arrays :
  uniqElem [1; 2; 3; 4; 5]%Z [4; 5; 6; 7; 8]%Z
  = filter (λ x, x ∉ [4; 5; 6; 7; 8]%Z) [1; 2; 3; 4; 5]%Z
    ++ filter (λ x, x ∉ [1; 2; 3; 4; 5]%Z) [4; 5; 6; 7; 8]%Z.
Proof.
  apply (uniqElem_symmetric_difference [1; 2; 3; 4; 5]%Z [4; 5; 6; 7; 8]%Z);
    apply (bool_decide_unpack _); vm_compute; exact I.
Defined.

Example uniqElem_routes_value :
  uniqElem [1; 2; 3; 4; 5]%Z [4; 5; 6; 7; 8]%Z = [1; 2; 3; 6; 7; 8]%Z.
Proof. vm_compute. reflexivity. Qed.

Example uniqElem_repeats_dropped :
  uniqElem [7; 7; 1]%Z [2; 1; 3]%Z = [2; 3]%Z.
Proof. vm_compute. reflexivity. Qed.

End TechProblemsProps.

(** ** Properties of the debounce utility *)

Module DebounceProps.
Import Debounce.
Local Open Scope Z_scope.

Lemma some_bind {A B} (x : A) (f : A → option B) : Some x ≫= f = f x.
Proof. reflexivity. Qed.

Lemma Forall_filter_keep {A} (Q P : A → Prop) `{!∀ x, Decision (P x)}
    (l : list A) :
  Forall Q l → Forall Q (filter P l).
Proof.
  rewrite !Forall_forall. intros HQ x Hx.
  apply list_elem_of_filter in Hx as [_ Hx]. by apply HQ.
Qed.

(** *** The wait the host makes of a delay *)

Lemma timer_duration_positive (ms : Z) : 1 ≤ timer_duration ms.
Proof.
  unfold timer_duration, TIMEOUT_MAX.
  destruct (Z.ltb_spec ms 1), (Z.ltb_spec 2147483647 ms); simpl; lia.
Qed.

(** From 1 to 2^31-1 the host waits as long as it is asked to. *)
Lemma timer_duration_honoured (ms : Z) :
  1 ≤ ms ≤ TIMEOUT_MAX → timer_duration ms = ms.
Proof.
  unfold timer_duration, TIMEOUT_MAX.
  destruct (Z.ltb_spec ms 1), (Z.ltb_spec 2147483647 ms); simpl; lia.
Qed.


(** A pause longer than a delay that is not negative is at least as long
    as the wait. *)
Lemma timer_duration_within (ms d : Z) :
  0 ≤ ms → ms < d → timer_duration ms ≤ d.
Proof.
  unfold timer_duration, TIMEOUT_MAX.
  destruct (Z.ltb_spec ms 1), (Z.ltb_spec 2147483647 ms); simpl; lia.
Qed.

(** *** What a call of the wrapper does *)

Section WrapperFacts.
Context {Args Err : Type}.
Variable func : Args → behaviour Args Err.
Variable delay : Z.

Abbreviation world' := (world Args Err).
Abbreviation timer' := (timer Args).

Lemma wrapper_effect (args : Args) (w : world') :
  wrapper delay args w =
  (Normal tt,
   {| now := now w;
      next_handle := Pos.succ (next_handle w);
      pending := cancelled w ++ [new_timer delay args w];
      timerId := Some (next_handle w);
      invoked := invoked w;
      host_calls := (host_calls w ++ cancellation w)
                      ++ [SetTimeout (next_handle w) delay args];
      uncaught := uncaught w |}).
Proof.
  unfold wrapper, cancelled, cancellation, new_timer, mbind, M_bind,
    read_timerId.
  destruct (timerId w) as [id|] eqn:E; simpl; [done|].
  by rewrite app_nil_r.
Qed.

Lemma wrapper_normal (args : Args) (w : world') :
  wrapper delay args w = (Normal tt, exec (wrapper delay args) w).
Proof. unfold exec. by rewrite wrapper_effect. Qed.

Lemma pending_wrapper (args : Args) (w : world') :
  pending (exec (wrapper delay args) w) = cancelled w ++ [new_timer delay args w].
Proof. unfold exec. by rewrite wrapper_effect. Qed.

Lemma host_calls_wrapper (args : Args) (w : world') :
  host_calls (exec (wrapper delay args) w)
  = (host_calls w ++ cancellation w)
      ++ [SetTimeout (next_handle w) delay args].
Proof. unfold exec. by rewrite wrapper_effect. Qed.

Lemma for_each_wrapper_cons (a : Args) (calls : list Args) (w : world') :
  for_each (a :: calls) (wrapper delay) w
  = for_each calls (wrapper delay) (exec (wrapper delay a) w).
Proof.
  cbn [for_each]. unfold mbind, M_bind. by rewrite wrapper_normal.
Qed.

Lemma exec_for_each_wrapper_cons (a : Args) (calls : list Args) (w : world') :
  exec (for_each (a :: calls) (wrapper delay)) w
  = exec (for_each calls (wrapper delay)) (exec (wrapper delay a) w).
Proof. unfold exec at 1 2. by rewrite for_each_wrapper_cons. Qed.

Lemma for_each_wrapper_normal (calls : list Args) (w : world') :
  for_each calls (wrapper delay) w
  = (Normal tt, exec (for_each calls (wrapper delay)) w).
Proof.
  revert w. induction calls as [|a calls IH]; intros w; [done|].
  unfold exec. rewrite for_each_wrapper_cons. by rewrite IH.
Qed.

Lemma tracked_cancelled (w : world') : tracked w → cancelled w = [].
Proof.
  unfold cancelled. intros [Hp | (t & Hp & Hid)]; rewrite Hp.
  - by destruct (timerId w).
  - rewrite Hid. by rewrite filter_cons_False by (intros H; by apply H).
Qed.

Lemma wrapper_tracked (args : Args) (w : world') :
  tracked w →
  pending (exec (wrapper delay args) w) = [new_timer delay args w]
  ∧ tracked (exec (wrapper delay args) w).
Proof.
  intros Ht. unfold exec. rewrite wrapper_effect. simpl.
  rewrite tracked_cancelled by done. split; [done|].
  right. by exists (new_timer delay args w).
Qed.

Lemma for_each_wrapper_tracked (calls : list Args) (w : world') :
  tracked w → tracked (exec (for_each calls (wrapper delay)) w).
Proof.
  revert w. induction calls as [|a calls IH]; intros w Ht; [done|].
  rewrite exec_for_each_wrapper_cons.
  apply IH. by apply wrapper_tracked.
Qed.

(** *** What a firing does *)

Lemma apply_func_effect (args : Args) (w : world') :
  apply_func func delay args w = (outcome (func args), after_action func delay args w).
Proof.
  unfold apply_func, after_action, mbind, M_bind.
  unfold record_invocation at 1. cbn beta iota.
  rewrite for_each_wrapper_normal. reflexivity.
Qed.

Lemma callback_effect (args : Args) (w : world') :
  callback func delay args w =
  match outcome (func args) with
  | Normal _ => (Normal tt, exec (write_timerId None) (after_action func delay args w))
  | Throw e => (Throw e, after_action func delay args w)
  end.
Proof.
  unfold callback, mbind, M_bind. rewrite apply_func_effect.
  by destruct (outcome (func args)).
Qed.

Lemma fire_effect (t : timer') (w : world') :
  fire func delay t w =
  match outcome (func (t_args t)) with
  | Normal _ =>
      exec (write_timerId None) (after_action func delay (t_args t) (dequeue t w))
  | Throw e => report e (after_action func delay (t_args t) (dequeue t w))
  end.
Proof.
  unfold fire. rewrite callback_effect.
  by destruct (outcome (func (t_args t))).
Qed.

Lemma after_action_quiet (args : Args) (w : world') :
  nested_calls (func args) = [] →
  after_action func delay args w = exec (record_invocation args) w.
Proof. unfold after_action. by intros ->. Qed.

Lemma invoked_wrapper (args : Args) (w : world') :
  invoked (exec (wrapper delay args) w) = invoked w.
Proof. unfold exec. by rewrite wrapper_effect. Qed.

Lemma invoked_for_each_wrapper (calls : list Args) (w : world') :
  invoked (exec (for_each calls (wrapper delay)) w) = invoked w.
Proof.
  revert w. induction calls as [|a calls IH]; intros w; [done|].
  rewrite exec_for_each_wrapper_cons.
  etrans; [apply IH|apply invoked_wrapper].
Qed.

Lemma invoked_after_action (args : Args) (w : world') :
  invoked (after_action func delay args w) = invoked w ++ [(now w, args)].
Proof. unfold after_action. by rewrite invoked_for_each_wrapper. Qed.

Lemma invoked_fire (t : timer') (w : world') :
  invoked (fire func delay t w) = invoked w ++ [(now w, t_args t)].
Proof.
  rewrite fire_effect.
  destruct (outcome (func (t_args t))); simpl;
    by rewrite invoked_after_action.
Qed.

(** Scheduling never touches the clock or the host's error handler. *)
Lemma frame_wrapper (args : Args) (w : world') :
  now (exec (wrapper delay args) w) = now w
  ∧ uncaught (exec (wrapper delay args) w) = uncaught w.
Proof. unfold exec. by rewrite wrapper_effect. Qed.

Lemma frame_for_each_wrapper (calls : list Args) (w : world') :
  now (exec (for_each calls (wrapper delay)) w) = now w
  ∧ uncaught (exec (for_each calls (wrapper delay)) w) = uncaught w.
Proof.
  revert w. induction calls as [|a calls IH]; intros w; [done|].
  rewrite exec_for_each_wrapper_cons.
  destruct (IH (exec (wrapper delay a) w)) as [-> ->].
  apply frame_wrapper.
Qed.

Lemma frame_after_action (args : Args) (w : world') :
  now (after_action func delay args w) = now w
  ∧ uncaught (after_action func delay args w) = uncaught w.
Proof.
  unfold after_action.
  by destruct (frame_for_each_wrapper (nested_calls (func args))
                 (exec (record_invocation args) w)) as [-> ->].
Qed.

(** *** Invariants of the event loop *)

(** A property that every primitive move of the limiter and of the host
    keeps holds in every reachable world. *)
Section Invariant.
Variable P : world' → Prop.
Hypothesis P_wrapper : ∀ a w, P w → P (exec (wrapper delay a) w).
Hypothesis P_dequeue : ∀ t w, P w → P (dequeue t w).
Hypothesis P_record : ∀ a w, P w → P (exec (record_invocation a) w).
Hypothesis P_clear_slot : ∀ w, P w → P (exec (write_timerId None) w).
Hypothesis P_report : ∀ e w, P w → P (report e w).
Hypothesis P_advance : ∀ T w, P w → P (advance_to T w).
Hypothesis P_init : P (init delay).

Lemma invariant_for_each (calls : list Args) (w : world') :
  P w → P (exec (for_each calls (wrapper delay)) w).
Proof.
  revert w. induction calls as [|a calls IH]; intros w Hw; [done|].
  rewrite exec_for_each_wrapper_cons. by apply IH, P_wrapper.
Qed.

Lemma invariant_fire (t : timer') (w : world') :
  P w → P (fire func delay t w).
Proof.
  intros Hw. rewrite fire_effect.
  assert (P (after_action func delay (t_args t) (dequeue t w))) as Ha.
  { unfold after_action. by apply invariant_for_each, P_record, P_dequeue. }
  destruct (outcome (func (t_args t))); [by apply P_clear_slot|by apply P_report].
Qed.

Lemma invariant_reachable (w : world') : reachable func delay w → P w.
Proof.
  unfold reachable. revert w. apply rtc_ind_r; [done|].
  intros w1 w2 _ Hstep IH.
  destruct Hstep; [by apply P_wrapper|by apply invariant_fire|by apply P_advance].
Qed.
End Invariant.

Lemma delay_kept_wrapper (a : Args) (w : world') :
  delay_kept delay w → delay_kept delay (exec (wrapper delay a) w).
Proof.
  intros [Hp Hc]. unfold exec. rewrite wrapper_effect. split; simpl.
  - apply Forall_app. split; [|by repeat constructor].
    unfold cancelled. destruct (timerId w); [|done].
    by apply Forall_filter_keep.
  - apply Forall_app. split; [|by repeat constructor].
    apply Forall_app. split; [done|].
    unfold cancellation. destruct (timerId w); by repeat constructor.
Qed.

Lemma delay_kept_reachable (w : world') :
  reachable func delay w → delay_kept delay w.
Proof.
  apply invariant_reachable.
  - apply delay_kept_wrapper.
  - intros t w' [Hp Hc]. split; [|done]. simpl. by apply Forall_filter_keep.
  - by intros a w' [Hp Hc].
  - by intros w' [Hp Hc].
  - by intros e w' [Hp Hc].
  - by intros T w' [Hp Hc].
  - by split; constructor.
Qed.

(** With an action that never calls the wrapper, the slot follows the
    queue in every reachable world. *)
Lemma tracked_reachable (w : world') :
  (∀ a, nested_calls (func a) = []) →
  reachable func delay w → tracked w.
Proof.
  intros Hquiet. unfold reachable. revert w. apply rtc_ind_r; [by left|].
  intros w1 w2 _ Hstep IH.
  destruct Hstep as [a w1|t w1 Hin _|T w1].
  - by apply wrapper_tracked.
  - left. rewrite fire_effect, after_action_quiet by apply Hquiet.
    assert (pending (dequeue t w1) = []) as Hp.
    { destruct IH as [Hp|(t' & Hp & _)]; simpl; rewrite Hp in *.
      - done.
      - apply list_elem_of_singleton in Hin as ->.
        by rewrite filter_cons_False by (intros H; by apply H). }
    by destruct (outcome (func (t_args t))).
  - done.
Qed.

(** X9. With an action that never calls the wrapper, whether it returns or
    throws, at most one timer is queued in every world the limiter can
    reach. *)
Lemma at_most_one_pending_quiet (w : world') :
  (∀ a, nested_calls (func a) = []) →
  reachable func delay w → (length (pending w) ≤ 1)%nat.
Proof.
  intros Hquiet Hr.
  destruct (tracked_reachable w Hquiet Hr) as [->|(t & -> & _)]; simpl; lia.
Qed.

(** The debounce of the notes keeps the slot on the queue whatever the
    action does, calls of the wrapper from inside the action included. *)
Lemma tracked_reachable_notes (w : world') :
  reachable_notes func delay w → tracked w.
Proof.
  unfold reachable_notes. revert w. apply rtc_ind_r; [by left|].
  intros w1 w2 _ Hstep IH.
  destruct Hstep as [a w1|t w1 Hin _|T w1].
  - by apply wrapper_tracked.
  - unfold fire_notes, callback_notes. rewrite apply_func_effect.
    assert (tracked (after_action func delay (t_args t) (dequeue t w1))) as Ht.
    { unfold after_action. apply for_each_wrapper_tracked. left. simpl.
      destruct IH as [Hp|(t' & Hp & _)]; rewrite Hp in *; [done|].
      apply list_elem_of_singleton in Hin as ->.
      by rewrite filter_cons_False by (intros H; by apply H). }
    by destruct (outcome (func (t_args t))).
  - done.
Qed.

(** X10. The debounce of the notes has at most one timer queued in every
    world it can reach, for every action, one that calls the wrapper while
    it runs included. *)
Lemma at_most_one_pending_notes (w : world') :
  reachable_notes func delay w → (length (pending w) ≤ 1)%nat.
Proof.
  intros Hr.
  destruct (tracked_reachable_notes w Hr) as [->|(t & -> & _)]; simpl; lia.
Qed.

(** *** Runs with their calls *)


Lemma paced_impl (ok ok' : Z → Prop) (calls : list (Z * Args)) :
  (∀ d, ok d → ok' d) → paced ok calls → paced ok' calls.
Proof.
  intros Himpl. induction calls as [|c calls IH]; [done|].
  destruct calls as [|c2 rest]; [done|].
  intros [Hok Hrest]. split; [by apply Himpl|by apply IH].
Qed.

Lemma settled_snoc (calls : list (Z * Args)) (c' : Z * Args) :
  settled delay (calls ++ [c'])
  = settled delay calls ++
      match last calls with
      | Some c => if timer_duration delay <=? c'.1 - c.1 then [c] else []
      | None => []
      end.
Proof.
  induction calls as [|c calls IH]; [done|].
  destruct calls as [|c2 rest].
  - simpl. by destruct (_ <=? _).
  - change (settled delay ((c :: c2 :: rest) ++ [c']))
      with (if timer_duration delay <=? c2.1 - c.1
            then c :: settled delay ((c2 :: rest) ++ [c'])
            else settled delay ((c2 :: rest) ++ [c'])).
    change (settled delay (c :: c2 :: rest))
      with (if timer_duration delay <=? c2.1 - c.1
            then c :: settled delay (c2 :: rest)
            else settled delay (c2 :: rest)).
    change (last (c :: c2 :: rest)) with (last (c2 :: rest)).
    rewrite IH. by destruct (_ <=? _).
Qed.

(** When every pause is at least the host's wait, every call but the last
    is settled. *)
Lemma settled_spaced (calls : list (Z * Args)) :
  paced (λ d, timer_duration delay ≤ d) calls →
  settled delay calls ++ option_list (last calls) = calls.
Proof.
  induction calls as [|c calls IH]; [done|].
  destruct calls as [|c2 rest]; [done|].
  intros [Hgap Hrest].
  change (settled delay (c :: c2 :: rest))
    with (if timer_duration delay <=? c2.1 - c.1
          then c :: settled delay (c2 :: rest)
          else settled delay (c2 :: rest)).
  change (last (c :: c2 :: rest)) with (last (c2 :: rest)).
  destruct (Z.leb_spec (timer_duration delay) (c2.1 - c.1)); [|lia].
  rewrite <- app_comm_cons. f_equal. by apply IH.
Qed.

Lemma history_reachable (p : bool) (calls : list (Z * Args)) (w : world') :
  history func delay p calls w → reachable func delay w.
Proof.
  unfold reachable.
  induction 1 as [|a calls w _ IH _|t calls w _ IH Hin Hdue|T calls w _ IH].
  - done.
  - eapply rtc_r; [exact IH|apply step_call].
  - eapply rtc_r; [exact IH|by apply step_fire].
  - eapply rtc_r; [exact IH|apply step_tick].
Qed.

Lemma history_call_at (p : bool) (a : Args) (calls : list (Z * Args))
    (w : world') (t : Z) :
  history func delay p calls w →
  (p = true → none_overdue w) →
  now w = t →
  history func delay p (calls ++ [(t, a)]) (exec (wrapper delay a) w).
Proof. intros Hh Hp <-. by apply history_call. Qed.

Lemma now_fire (t : timer') (w : world') : now (fire func delay t w) = now w.
Proof.
  rewrite fire_effect.
  destruct (frame_after_action (t_args t) (dequeue t w)) as [Hn _].
  destruct (outcome (func (t_args t))); exact Hn.
Qed.

(** The one queued timer fires, with an action that makes no call. *)
Lemma fire_awaited (t : timer') (w : world') :
  pending w = [t] → nested_calls (func (t_args t)) = [] →
  pending (fire func delay t w) = []
  ∧ invoked (fire func delay t w) = invoked w ++ [(now w, t_args t)].
Proof.
  intros Hp Hq. split; [|apply invoked_fire].
  rewrite fire_effect, after_action_quiet by done.
  assert (filter (λ t', t_id t' ≠ t_id t) [t] = []) as Hf
    by (by rewrite filter_cons_False by (intros H; by apply H)).
  destruct (outcome (func (t_args t))); simpl; by rewrite Hp, Hf.
Qed.

(** A call made while the slot follows the queue leaves its own timer as the
    one thing queued. *)
Lemma wrapper_awaits (a : Args) (w : world') :
  tracked w → awaits delay (exec (wrapper delay a) w) (now w, a).
Proof.
  intros Ht. destruct (wrapper_tracked a w Ht) as [Hq _].
  exists (new_timer delay a w). split; [done|].
  unfold exec. by rewrite wrapper_effect.
Qed.

(** The host can always run the timer that is waited for: the clock comes to
    its due time and it fires. *)
Lemma awaits_fires (p : bool) (calls : list (Z * Args)) (c : Z * Args)
    (w : world') :
  history func delay p calls w → awaits delay w c →
  nested_calls (func c.2) = [] →
  ∃ w', history func delay p calls w' ∧ pending w' = []
        ∧ invoked w'
          = invoked w ++ [(Z.max (now w) (c.1 + timer_duration delay), c.2)].
Proof.
  intros Hh (tm & Hq & _ & Hargs & Hd) Hquiet.
  exists (fire func delay tm (advance_to (t_due tm) w)).
  rewrite <- Hargs in Hquiet.
  destruct (fire_awaited tm (advance_to (t_due tm) w) Hq Hquiet) as [-> ->].
  split; [|split; [done|]].
  - apply history_fire; [by apply history_tick| |simpl; lia].
    simpl. rewrite Hq. by left.
  - simpl. by rewrite Hd, Hargs.
Qed.


(** On a host that has run every due timer by the time of each call, with
    an action that makes no call: a call whose timer is still queued when
    the next call comes is cancelled by it, every other call is answered. *)
Lemma punctual_invariant (calls : list (Z * Args)) (w : world') :
  history func delay true calls w →
  (∀ c, c ∈ calls → nested_calls (func c.2) = []) →
  Forall (λ r, r.1 ≤ now w) (invoked w)
  ∧ ((pending w = []
      ∧ Forall2 (answers delay) (invoked w)
          (settled delay calls ++ option_list (last calls)))
     ∨ (∃ c, last calls = Some c ∧ awaits delay w c
             ∧ Forall2 (answers delay) (invoked w) (settled delay calls))).
Proof.
  intros Hh.
  induction Hh as [|a calls w Hh IH Hp|t calls w Hh IH Hin Hdue|T calls w Hh IH];
    intros Hquiet.
  - split; [constructor|]. left. split; [done|constructor].
  - destruct IH as [Hbound Hcases].
    { intros c Hc. apply Hquiet, elem_of_app. by left. }
    rewrite invoked_wrapper. destruct (frame_wrapper a w) as [-> _].
    split; [done|]. right. exists (now w, a). rewrite last_snoc.
    split; [done|]. rewrite settled_snoc.
    destruct Hcases as [[Hq Hans]|(c & Hl & Hwait & Hans)].
    + split; [apply wrapper_awaits; by left|].
      destruct (last calls) as [c|] eqn:Hl; simpl in *.
      * apply Forall2_app_inv_r in Hans as (runs & run & Hruns & Hrun & Heq).
        inversion Hrun as [|r c0 rs cs [Hargs Hlate] Hnil]; subst.
        inversion Hnil; subst.
        rewrite Heq in Hbound. apply Forall_app in Hbound as [_ Hr].
        inversion Hr as [|r0 rs0 Hr0 _]; subst. simpl in Hr0.
        destruct (Z.leb_spec (timer_duration delay) (now w - c.1)); [|lia].
        rewrite Heq. apply Forall2_app; [done|].
        constructor; [by split|constructor].
      * by rewrite app_nil_r in *.
    + rewrite Hl. destruct Hwait as (tm & Hq & Hid & Hargs & Hd).
      split; [apply wrapper_awaits; right; by exists tm|].
      specialize (Hp eq_refl). unfold none_overdue in Hp.
      rewrite Hq in Hp. inversion Hp as [|tm0 ts Hlt _]; subst.
      cbn [fst].
      destruct (Z.leb_spec (timer_duration delay) (now w - c.1)); [lia|].
      by rewrite app_nil_r.
  - destruct (IH Hquiet) as [Hbound Hcases].
    rewrite now_fire, invoked_fire. split.
    { apply Forall_app. split; [done|]. constructor; [simpl; lia|constructor]. }
    destruct Hcases
      as [[Hq Hans]|(c & Hl & (tm & Hq & Hid & Hargs & Hd) & Hans)].
    + rewrite Hq in Hin. inversion Hin.
    + rewrite Hq in Hin. apply list_elem_of_singleton in Hin as ->.
      assert (nested_calls (func (t_args tm)) = []) as Hquiet_c.
      { rewrite Hargs. apply Hquiet.
        apply last_Some in Hl as [front ->]. apply elem_of_app. right. by left. }
      destruct (fire_awaited tm w Hq Hquiet_c) as [-> _].
      left. split; [done|]. rewrite Hl. simpl.
      apply Forall2_app; [done|].
      constructor; [|constructor]. split; simpl; [done|lia].
  - destruct (IH Hquiet) as [Hbound Hcases]. split; [|exact Hcases].
    eapply Forall_impl; [exact Hbound|]. intros r Hr. simpl in *. lia.
Qed.

(** *** The properties of the limiter *)


(** C5, as amended. Calls more than [delay] apart, [delay] not negative, on
    a host that has run every due timer by the time of each call: the
    action runs once per call, in the order of the calls, each run with the
    arguments of its call and no earlier than one host wait after it.  Only
    the last call can still be waiting, and the host can run its timer. *)
Theorem spaced_calls_fire_each (calls : list (Z * Args)) (w : world') :
  0 ≤ delay →
  history func delay true calls w →
  paced (λ d, delay < d) calls →
  (∀ c, c ∈ calls → nested_calls (func c.2) = []) →
  (pending w = [] ∧ Forall2 (answers delay) (invoked w) calls)
  ∨ (∃ front c,
       calls = front ++ [c] ∧ awaits delay w c
       ∧ Forall2 (answers delay) (invoked w) front
       ∧ ∃ w', history func delay true calls w' ∧ pending w' = []
               ∧ Forall2 (answers delay) (invoked w') calls).
Proof.
  intros Hd Hh Hpaced Hquiet.
  assert (settled delay calls ++ option_list (last calls) = calls) as Hall.
  { apply settled_spaced. eapply paced_impl; [|exact Hpaced].
    intros d Hlt. simpl in Hlt. apply timer_duration_within; lia. }
  destruct (punctual_invariant calls w Hh Hquiet)
    as [_ [[Hq Hans]|(c & Hl & Hwait & Hans)]].
  - left. by rewrite Hall in Hans.
  - right. rewrite Hl in Hall. simpl in Hall.
    exists (settled delay calls), c. split; [done|]. split; [done|].
    split; [done|].
    destruct (awaits_fires true calls c w Hh Hwait) as (w' & Hh' & Hq' & Hi').
    { apply Hquiet. rewrite <- Hall. apply elem_of_app. right. by left. }
    exists w'. split; [done|]. split; [done|]. rewrite <- Hall.
    rewrite Hi'.
    apply Forall2_app; [done|].
    constructor; [|constructor]. split; simpl; [done|lia].
Qed.

(** C6. A call of the wrapper returns at once and returns nothing: it
    completes normally with [undefined], the action has not run, the clock
    has not moved and no error has been raised. *)
Theorem wrapper_returns_at_once (args : Args) (w : world') :
  ∃ w', wrapper delay args w = (Normal tt, w')
        ∧ invoked w' = invoked w
        ∧ now w' = now w
        ∧ uncaught w' = uncaught w.
Proof.
  exists (exec (wrapper delay args) w).
  split; [apply wrapper_normal|]. split; [apply invoked_wrapper|].
  apply frame_wrapper.
Qed.

(** C7. An error thrown by the action escapes the timer callback unchanged:
    the callback has applied the action to the captured arguments and
    completes with the very same error, and the host's handler gets it. *)
Theorem callback_error_propagates (args : Args) (e : Err) (w : world') :
  outcome (func args) = Throw e →
  (∃ w', callback func delay args w = (Throw e, w')
         ∧ invoked w' = invoked w ++ [(now w, args)]
         ∧ uncaught w' = uncaught w)
  ∧ ∀ t, t_args t = args →
         uncaught (fire func delay t w) = uncaught w ++ [e].
Proof.
  intros He. split.
  - exists (after_action func delay args w). rewrite callback_effect, He.
    split; [done|]. split; [apply invoked_after_action|].
    apply frame_after_action.
  - intros t <-. rewrite fire_effect, He. simpl.
    by destruct (frame_after_action (t_args t) (dequeue t w)) as [_ ->].
Qed.

(** C8. Whatever [delay] is, negative or not, construction returns the
    wrapper normally, and in every world the limiter can reach each queued
    timer and each [setTimeout] call carries exactly that [delay]. *)
Theorem delay_taken_verbatim (w : world') :
  reachable func delay w →
  debounce (Args:=Args) (Err:=Err) delay host_start
  = (Normal (wrapper delay), init delay)
  ∧ Forall (λ t, t_delay t = delay) (pending w)
  ∧ Forall (uses_delay delay) (host_calls w).
Proof.
  intros Hr. split; [reflexivity|]. by apply delay_kept_reachable.
Qed.

(** C4, as amended. A queued timer that comes due runs the action with the
    captured arguments; if the action returns normally the slot is cleared
    afterwards, so the next call of the wrapper cancels nothing and just
    queues its timer.  In every case the next call queues a new timer. *)
Theorem firing_then_fresh_burst (t : timer') (w : world') :
  t ∈ pending w → t_due t ≤ now w →
  invoked (fire func delay t w) = invoked w ++ [(now w, t_args t)]
  ∧ (outcome (func (t_args t)) = Normal tt →
     timerId (fire func delay t w) = None
     ∧ uncaught (fire func delay t w) = uncaught w
     ∧ ∀ args',
         host_calls (exec (wrapper delay args') (fire func delay t w))
         = host_calls (fire func delay t w)
             ++ [SetTimeout (next_handle (fire func delay t w)) delay args']
         ∧ pending (exec (wrapper delay args') (fire func delay t w))
           = pending (fire func delay t w)
               ++ [new_timer delay args' (fire func delay t w)])
  ∧ (∀ args', ∃ kept,
        pending (exec (wrapper delay args') (fire func delay t w))
        = kept ++ [new_timer delay args' (fire func delay t w)]).
Proof.
  intros _ _. split; [apply invoked_fire|]. split.
  - intros Hok.
    assert (timerId (fire func delay t w) = None) as Hslot
      by (by rewrite fire_effect, Hok).
    split; [done|]. split.
    + rewrite fire_effect, Hok. simpl.
      by destruct (frame_after_action (t_args t) (dequeue t w)) as [_ ->].
    + intros args'. rewrite host_calls_wrapper, pending_wrapper.
      unfold cancellation, cancelled. rewrite Hslot.
      by rewrite app_nil_r.
  - intros args'. rewrite pending_wrapper. eauto.
Qed.

End WrapperFacts.

(** *** The scenarios of the specification *)



Example burst_world_invoked : invoked burst_world = [(160, "c"%string)].
Proof. reflexivity. Qed.


Lemma spaced_world_history :
  history steady 100 true [(0, "x"%string); (150, "y"%string)] spaced_world.
Proof.
  unfold spaced_world.
  apply history_fire; [|vm_compute; by left|vm_compute; by intros [=]]. apply history_tick.
  apply (history_call_at steady 100 true "y"%string [(0, "x"%string)] _ 150);
    [|intros _; vm_compute; constructor|vm_compute; reflexivity].
  apply history_tick.
  apply history_fire; [|vm_compute; by left|vm_compute; by intros [=]]. apply history_tick.
  apply (history_call_at steady 100 true "x"%string [] _ 0);
    [|intros _; vm_compute; constructor|vm_compute; reflexivity].
  apply history_init.
Qed.

(** delay = 100ms; calls at 0 and 150, the host on time: two runs, the
    first call's no earlier than 100, the second call's no earlier than
    250. *)
Lemma spaced_scenario :
  pending spaced_world = []
  ∧ Forall2 (answers 100) (invoked spaced_world)
      [(0, "x"%string); (150, "y"%string)].
Proof.
  destruct (spaced_calls_fire_each steady 100
              [(0, "x"%string); (150, "y"%string)] spaced_world)
    as [Hran|(front & c & _ & (tm & Hq & _) & _)].
  - lia.
  - apply spaced_world_history.
  - simpl. lia.
  - intros c _. reflexivity.
  - exact Hran.
  - discriminate Hq.
Defined.

Example spaced_world_invoked :
  invoked spaced_world = [(100, "x"%string); (250, "y"%string)].
Proof. reflexivity. Qed.

(** C5, refuted as stated.  The same two calls, 150 ms apart with a
    [delay] of 100 ms, on a host that runs no timer between them: the
    second call cancels the timer of the first, and the action runs once,
    with the second call's argument. *)
Lemma late_host_runs_once :
  history steady 100 false
    [(0, "x"%string); (150, "y"%string)] late_host_world
  ∧ paced (λ d, 100 < d) [(0, "x"%string); (150, "y"%string)]
  ∧ invoked late_host_world = [(250, "y"%string)]
  ∧ pending late_host_world = [].
Proof.
  split; [|split; [simpl; lia|split; reflexivity]].
  unfold late_host_world.
  apply history_fire; [|vm_compute; by left|vm_compute; by intros [=]]. apply history_tick.
  apply (history_call_at steady 100 false "y"%string [(0, "x"%string)] _ 150);
    [|intros [=]|vm_compute; reflexivity].
  apply history_tick.
  apply (history_call_at steady 100 false "x"%string [] _ 0);
    [|intros [=]|vm_compute; reflexivity].
  apply history_init.
Qed.

(** The schedule on which every timer runs when it is due, on the same
    inputs. *)
Example burst_schedule :
  invoked <$> scenario steady 100 2
                [(0, "a"%string); (30, "b"%string); (60, "c"%string)] 160
  = Some [(160, "c"%string)].
Proof. reflexivity. Qed.

Example spaced_schedule :
  invoked <$> scenario steady 100 2
                [(0, "x"%string); (150, "y"%string)] 250
  = Some [(100, "x"%string); (250, "y"%string)].
Proof. reflexivity. Qed.

Example single_call_scenario :
  invoked <$> scenario steady 100 2 [(0, "x"%string)] 100
  = Some [(100, "x"%string)].
Proof. reflexivity. Qed.

Example no_call_scenario :
  invoked <$> scenario steady 100 2 [] 1000 = Some [].
Proof. reflexivity. Qed.

(** The same two calls with an action that throws: both firings happen, and
    both errors reach the host. *)
Example spaced_scenario_failing :
  (λ w, (invoked w, uncaught w))
    <$> scenario failing 100 2 [(0, "x"%string); (150, "y"%string)] 250
  = Some ([(100, "x"%string); (250, "y"%string)],
          ["boom"%string; "boom"%string]).
Proof. reflexivity. Qed.

Lemma callback_error_scenario :
  (∃ w', callback failing 100 "x"%string (exec (wrapper 100 "x"%string) (init 100))
         = (Throw "boom"%string, w')
         ∧ invoked w' = [(0, "x"%string)]
         ∧ uncaught w' = [])
  ∧ ∀ t, t_args t = "x"%string →
         uncaught (fire failing 100 t (exec (wrapper 100 "x"%string) (init 100)))
         = ["boom"%string].
Proof.
  apply (callback_error_propagates failing 100 "x"%string "boom"%string
           (exec (wrapper 100 "x"%string) (init 100))).
  reflexivity.
Defined.

(** A negative delay goes to the host as it is; it is the host that makes
    a wait of 1 ms of it when it computes the due time. *)
Lemma negative_delay_scenario :
  debounce (Args:=string) (Err:=string) (-5) host_start
  = (Normal (wrapper (-5)), init (-5))
  ∧ Forall (λ t, t_delay t = -5)
      (pending (Err:=string) (exec (wrapper (-5) "x"%string) (init (-5))))
  ∧ Forall (uses_delay (-5))
      (host_calls (Err:=string) (exec (wrapper (-5) "x"%string) (init (-5)))).
Proof.
  apply (delay_taken_verbatim steady (-5)).
  apply rtc_once. apply step_call.
Defined.

Example negative_delay_timer :
  pending (Err:=string) (exec (wrapper (-5) "x"%string) (init (-5)))
  = [{| t_id := 1; t_delay := -5; t_due := 1; t_args := "x"%string |}].
Proof. reflexivity. Qed.

Lemma firing_scenario :
  let w := advance_to 100 (exec (wrapper 100 "x"%string) (init 100)) in
  let w' := fire steady 100 (first_timer "x"%string) w in
  invoked w' = [(100, "x"%string)]
  ∧ timerId w' = None
  ∧ uncaught w' = []
  ∧ (∀ args',
        host_calls (exec (wrapper 100 args') w')
        = host_calls w' ++ [SetTimeout (next_handle w') 100 args']
        ∧ pending (exec (wrapper 100 args') w')
          = pending w' ++ [new_timer 100 args' w']).
Proof.
  destruct (firing_then_fresh_burst steady 100 (first_timer "x"%string)
              (advance_to 100 (exec (wrapper 100 "x"%string) (init 100))))
    as (Hinvoked & Hnormal & _).
  - by left.
  - simpl. lia.
  - destruct (Hnormal eq_refl) as (Hslot & Huncaught & Hnext).
    split; [exact Hinvoked|]. split; [exact Hslot|].
    split; [exact Huncaught|exact Hnext].
Defined.

(** C4, refuted as stated. When the action throws, the assignment
    [timerId = null] is skipped: the slot still holds the handle of the timer
    that has fired, and the next call of the wrapper does issue a
    [clearTimeout] for it. *)
Lemma throwing_action_keeps_slot :
  let w := advance_to 100 (exec (wrapper 100 "x"%string) (init 100)) in
  let w' := fire failing 100 (first_timer "x"%string) w in
  first_timer "x"%string ∈ pending w
  ∧ t_due (first_timer "x"%string) ≤ now w
  ∧ invoked w' = [(100, "x"%string)]
  ∧ timerId w' = Some 1%positive
  ∧ timerId w' ≠ None
  ∧ host_calls (exec (wrapper 100 "y"%string) w')
    = host_calls w' ++ [ClearTimeout 1; SetTimeout 2 100 "y"%string].
Proof.
  simpl. repeat split; [by left|lia|done].
Qed.


Lemma reentrant_after_firing_reachable :
  reachable reentrant 100 reentrant_after_firing.
Proof.
  unfold reachable, reentrant_after_firing.
  eapply rtc_l; [apply (step_call reentrant 100 true)|].
  eapply rtc_l; [apply (step_tick reentrant 100 100)|].
  apply rtc_once. apply step_fire; [by left|simpl; lia].
Qed.

Lemma reentrant_after_call_reachable :
  reachable reentrant 100 reentrant_after_call.
Proof.
  unfold reachable, reentrant_after_call.
  etrans; [apply reentrant_after_firing_reachable|].
  eapply rtc_l; [apply (step_tick reentrant 100 150)|].
  apply rtc_once. apply step_call.
Qed.

(** C2, on the limiter as written. With an action that calls the wrapper
    while it runs, a reachable world has two timers queued: the firing
    leaves one timer queued and the slot empty, and the next call of the
    wrapper takes the queue from one timer to two. *)
Theorem reentrant_two_pending :
  reachable reentrant 100 reentrant_after_call
  ∧ length (pending (advance_to 150 reentrant_after_firing)) = 1%nat
  ∧ pending reentrant_after_call
    = [{| t_id := 2; t_delay := 100; t_due := 200; t_args := false |};
       {| t_id := 3; t_delay := 100; t_due := 250; t_args := false |}]
  ∧ ¬ (∀ w, reachable reentrant 100 w → (length (pending w) ≤ 1)%nat).
Proof.
  split; [apply reentrant_after_call_reachable|].
  split; [reflexivity|]. split; [reflexivity|].
  intros H. specialize (H _ reentrant_after_call_reachable).
  vm_compute in H. lia.
Qed.

(** C3, on the limiter as written. In the world after the re-entrant
    firing a timer is queued while [timerId] is null: the next call of the
    wrapper issues no [clearTimeout], the old timer stays queued, and both
    timers fire. *)
Theorem reentrant_call_cancels_nothing :
  reachable reentrant 100 (advance_to 150 reentrant_after_firing)
  ∧ timerId (advance_to 150 reentrant_after_firing) = None
  ∧ pending (advance_to 150 reentrant_after_firing)
    = [{| t_id := 2; t_delay := 100; t_due := 200; t_args := false |}]
  ∧ host_calls reentrant_after_call
    = host_calls reentrant_after_firing ++ [SetTimeout 3 100 false]
  ∧ {| t_id := 2; t_delay := 100; t_due := 200; t_args := false |}
      ∈ pending reentrant_after_call
  ∧ invoked <$> scenario reentrant 100 4 [(0, true); (150, false)] 250
    = Some [(100, true); (200, false); (250, false)].
Proof.
  split.
  { eapply rtc_r; [apply reentrant_after_firing_reachable|].
    apply (step_tick reentrant 100 150). }
  repeat split. by left.
Qed.

(** *** What the limiter never does *)

Section LimiterFacts.
Context {Args Err : Type}.
Variable func : Args → behaviour Args Err.
Variable delay : Z.

(** Invariants whose firing step looks at the timer that fires: it is on
    the queue when the host takes it. *)
Section FiringInvariant.
Variable P : world Args Err → Prop.
Hypothesis P_wrapper : ∀ a w, P w → P (exec (wrapper delay a) w).
Hypothesis P_take : ∀ t w,
  P w → t ∈ pending w → P (exec (record_invocation (t_args t)) (dequeue t w)).
Hypothesis P_clear_slot : ∀ w, P w → P (exec (write_timerId None) w).
Hypothesis P_report : ∀ e w, P w → P (report e w).
Hypothesis P_advance : ∀ T w, P w → P (advance_to T w).
Hypothesis P_init : P (init delay).

Lemma firing_invariant_reachable (w : world Args Err) :
  reachable func delay w → P w.
Proof.
  unfold reachable. revert w. apply rtc_ind_r; [done|].
  intros w1 w2 _ Hstep IH. destruct Hstep as [a w1|t w1 Hin _|T w1].
  - by apply P_wrapper.
  - rewrite fire_effect.
    assert (P (after_action func delay (t_args t) (dequeue t w1))) as Ha.
    { unfold after_action. apply invariant_for_each; [done|]. by apply P_take. }
    destruct (outcome (func (t_args t)));
      [by apply P_clear_slot|by apply P_report].
  - by apply P_advance.
Qed.
End FiringInvariant.

Lemma cancelled_sublist (w : world Args Err) :
  cancelled w `sublist_of` pending w.
Proof.
  unfold cancelled. destruct (timerId w); [apply sublist_filter|done].
Qed.

Lemma set_timeouts_app (cs1 cs2 : list (host_call Args)) :
  set_timeouts (cs1 ++ cs2) = (set_timeouts cs1 + set_timeouts cs2)%nat.
Proof. unfold set_timeouts. by rewrite filter_app, length_app. Qed.

Lemma set_timeouts_cancellation (w : world Args Err) :
  set_timeouts (cancellation w) = 0%nat.
Proof. unfold cancellation. by destruct (timerId w). Qed.

Lemma handles_fresh_wrapper (a : Args) (w : world Args Err) :
  handles_fresh w → handles_fresh (exec (wrapper delay a) w).
Proof.
  intros (Hnd & Hlt & Hslot). unfold handles_fresh, exec.
  rewrite wrapper_effect. simpl.
  pose proof (cancelled_sublist w) as Hsub.
  assert (Forall (λ t, (t_id t < next_handle w)%positive) (cancelled w)) as Hlt'.
  { rewrite Forall_forall in *. intros t Ht. apply Hlt.
    by eapply elem_of_sublist. }
  split; [|split].
  - rewrite fmap_app. apply NoDup_app. split; [|split].
    + refine (sublist_NoDup _ _ Hnd _). by apply fmap_sublist.
    + intros id Hid ->%list_elem_of_singleton.
      apply list_elem_of_fmap in Hid as (t & Heq & Ht).
      rewrite Forall_forall in Hlt'. specialize (Hlt' t Ht). simpl in Heq. lia.
    + apply NoDup_singleton.
  - apply Forall_app. split.
    + eapply Forall_impl; [exact Hlt'|]. intros t Ht. simpl in *. lia.
    + constructor; [simpl; lia|constructor].
  - intros id [= <-]. lia.
Qed.

(** Timer handles are never reused: in every world the limiter can
    reach, whatever the action does, the queued timers have distinct handles
    and the handle in the slot has been handed out before. *)
Theorem handles_never_reused (w : world Args Err) :
  reachable func delay w → handles_fresh w.
Proof.
  apply invariant_reachable.
  - apply handles_fresh_wrapper.
  - intros t w' (Hnd & Hlt & Hslot). split; [|split]; simpl; [| |done].
    + refine (sublist_NoDup _ _ Hnd _). apply fmap_sublist, sublist_filter.
    + by apply Forall_filter_keep.
  - by intros a w' H.
  - intros w' (Hnd & Hlt & _). by split; [|split].
  - by intros e w' H.
  - by intros T w' H.
  - split; [constructor|]. split; [constructor|done].
Qed.

(** X11. The action runs at most once per scheduled timer: runs so far
    plus timers still queued never exceed the [setTimeout] calls made, also
    when the action calls the wrapper or throws. *)
Theorem runs_bounded_by_timers (w : world Args Err) :
  reachable func delay w →
  (length (invoked w) + length (pending w)
   ≤ set_timeouts (host_calls w))%nat.
Proof.
  apply firing_invariant_reachable with
    (P := λ w, (length (invoked w) + length (pending w)
                ≤ set_timeouts (host_calls w))%nat).
  - intros a w' Hw'.
    rewrite invoked_wrapper, pending_wrapper, host_calls_wrapper.
    rewrite !set_timeouts_app, set_timeouts_cancellation, length_app.
    pose proof (sublist_length _ _ (cancelled_sublist w')).
    change (set_timeouts [SetTimeout (next_handle w') delay a]) with 1%nat.
    simpl. lia.
  - intros t w' Hw' Hin. simpl. rewrite length_app. simpl.
    pose proof (length_filter_lt (λ t', t_id t' ≠ t_id t) (pending w') t Hin)
      as Hlt.
    specialize (Hlt (λ H, H eq_refl)). lia.
  - by intros w' Hw'.
  - by intros e w' Hw'.
  - by intros T w' Hw'.
  - simpl. lia.
Qed.

(** X12. The action only ever runs with arguments that a call of the
    wrapper handed to [setTimeout] together with [delay]. *)
Theorem runs_come_from_calls (w : world Args Err) :
  reachable func delay w →
  ∀ τ a, (τ, a) ∈ invoked w →
         ∃ id, SetTimeout id delay a ∈ host_calls w.
Proof.
  intros Hr.
  enough ((∀ t, t ∈ pending w →
                SetTimeout (t_id t) delay (t_args t) ∈ host_calls w)
          ∧ ∀ τ a, (τ, a) ∈ invoked w →
                   ∃ id, SetTimeout id delay a ∈ host_calls w) as [_ H]
    by exact H.
  revert w Hr. apply firing_invariant_reachable with
    (P := λ w, (∀ t, t ∈ pending w →
                     SetTimeout (t_id t) delay (t_args t) ∈ host_calls w)
               ∧ ∀ τ a, (τ, a) ∈ invoked w →
                        ∃ id, SetTimeout id delay a ∈ host_calls w).
  - intros a w' [Hq Hi].
    rewrite invoked_wrapper, pending_wrapper, host_calls_wrapper. split.
    + intros t [Ht | ->%list_elem_of_singleton]%elem_of_app.
      * apply elem_of_app. left. apply elem_of_app. left. apply Hq.
        by eapply elem_of_sublist; [|apply cancelled_sublist].
      * apply elem_of_app. right. by left.
    + intros τ a' Hin. destruct (Hi τ a' Hin) as [id Hid]. exists id.
      apply elem_of_app. left. apply elem_of_app. by left.
  - intros t w' [Hq Hi] Hin. split; simpl.
    + intros t' [_ Ht']%list_elem_of_filter. by apply Hq.
    + intros τ a [Hold|[= -> ->]%list_elem_of_singleton]%elem_of_app.
      * by apply (Hi τ a).
      * exists (t_id t). by apply Hq.
  - by intros w' Hw'.
  - by intros e w' Hw'.
  - by intros T w' Hw'.
  - split; [intros t Ht; inversion Ht|intros τ a Ht; inversion Ht].
Qed.

(** X13. Trailing-edge behaviour on any sequence of calls, for any
    [delay], with an action that makes no call, on a host that has run every
    due timer by the time of each call.  The runs of the action answer, in
    order, exactly the calls followed by a pause of at least the host's wait
    for [delay], and the last call once its timer has run: each run has the
    arguments of its call and comes no earlier than that wait after it.  A
    call followed sooner by another never runs.  While the last call is
    waiting its timer is the one thing queued, and the host can run it. *)
Theorem trailing_edge_runs (calls : list (Z * Args)) (w : world Args Err) :
  history func delay true calls w →
  (∀ c, c ∈ calls → nested_calls (func c.2) = []) →
  (pending w = []
   ∧ Forall2 (answers delay) (invoked w)
       (settled delay calls ++ option_list (last calls)))
  ∨ (∃ c, last calls = Some c ∧ awaits delay w c
          ∧ Forall2 (answers delay) (invoked w) (settled delay calls)
          ∧ ∃ w', history func delay true calls w' ∧ pending w' = []
                  ∧ Forall2 (answers delay) (invoked w')
                      (settled delay calls ++ [c])).
Proof.
  intros Hh Hquiet.
  destruct (punctual_invariant func delay calls w Hh Hquiet)
    as [_ [[Hq Hans]|(c & Hl & Hwait & Hans)]]; [by left|].
  right. exists c. split; [done|]. split; [done|]. split; [done|].
  destruct (awaits_fires func delay true calls c w Hh Hwait)
    as (w' & Hh' & Hq' & Hi').
  { apply Hquiet. apply last_Some in Hl as [front ->].
    apply elem_of_app. right. by left. }
  exists w'. split; [done|]. split; [done|].
  rewrite Hi'. apply Forall2_app; [done|].
  constructor; [|constructor]. split; simpl; [done|lia].
Qed.

End LimiterFacts.

(** *** Runs that exercise these properties *)

Lemma failing_after_call_reachable :
  reachable failing 100 failing_after_call.
Proof.
  unfold reachable, failing_after_call.
  eapply rtc_l; [apply (step_call failing 100 "x"%string)|].
  eapply rtc_l; [apply (step_tick failing 100 100)|].
  eapply rtc_l; [apply (step_fire failing 100 (first_timer "x"%string));
                 [by left|simpl; lia]|].
  eapply rtc_l; [apply (step_tick failing 100 150)|].
  apply rtc_once. apply step_call.
Qed.

Lemma notes_after_call_reachable :
  reachable_notes reentrant 100 notes_after_call.
Proof.
  unfold reachable_notes, notes_after_call.
  eapply rtc_l; [apply (step_notes_call reentrant 100 true)|].
  eapply rtc_l; [apply (step_notes_tick reentrant 100 100)|].
  eapply rtc_l; [apply (step_notes_fire reentrant 100 (first_timer true));
                 [by left|simpl; lia]|].
  eapply rtc_l; [apply (step_notes_tick reentrant 100 150)|].
  apply rtc_once. apply step_notes_call.
Qed.

Lemma at_most_one_pending_failing :
  (length (pending failing_after_call) ≤ 1)%nat.
Proof.
  apply (at_most_one_pending_quiet failing 100 failing_after_call).
  - intros a. reflexivity.
  - apply failing_after_call_reachable.
Defined.

Lemma at_most_one_pending_notes_reentrant :
  (length (pending notes_after_call) ≤ 1)%nat.
Proof.
  apply (at_most_one_pending_notes reentrant 100 notes_after_call).
  apply notes_after_call_reachable.
Defined.

(** Where debounce.ts ends up with timers 2 and 3, the debounce of the
    notes has cancelled timer 2. *)
Example notes_after_call_pending :
  pending notes_after_call
  = [{| t_id := 3; t_delay := 100; t_due := 250; t_args := false |}].
Proof. reflexivity. Qed.

Lemma handles_never_reused_reentrant :
  handles_fresh reentrant_after_call.
Proof.
  apply (handles_never_reused reentrant 100 reentrant_after_call).
  apply reentrant_after_call_reachable.
Defined.

Lemma runs_bounded_by_timers_reentrant :
  (length (invoked reentrant_after_call)
   + length (pending reentrant_after_call)
   ≤ set_timeouts (host_calls reentrant_after_call))%nat.
Proof.
  apply (runs_bounded_by_timers reentrant 100 reentrant_after_call).
  apply reentrant_after_call_reachable.
Defined.

Lemma runs_come_from_calls_reentrant :
  ∃ id, SetTimeout id 100 true ∈ host_calls reentrant_after_call.
Proof.
  apply (runs_come_from_calls reentrant 100 reentrant_after_call
           reentrant_after_call_reachable 100 true).
  vm_compute. left.
Defined.

Lemma mixed_world_history :
  history steady 100 true
    [(0, "a"%string); (30, "b"%string); (200, "c"%string)] mixed_world.
Proof.
  unfold mixed_world.
  apply history_fire; [|vm_compute; by left|vm_compute; by intros [=]]. apply history_tick.
  apply (history_call_at steady 100 true "c"%string
           [(0, "a"%string); (30, "b"%string)] _ 200);
    [|intros _; vm_compute; constructor|vm_compute; reflexivity].
  apply history_tick.
  apply history_fire; [|vm_compute; by left|vm_compute; by intros [=]]. apply history_tick.
  apply (history_call_at steady 100 true "b"%string [(0, "a"%string)] _ 30);
    [|intros _; vm_compute; by repeat constructor|vm_compute; reflexivity].
  apply history_tick.
  apply (history_call_at steady 100 true "a"%string [] _ 0);
    [|intros _; vm_compute; constructor|vm_compute; reflexivity].
  apply history_init.
Qed.

(** delay = 100ms; calls at 0, 30 and 200: the call at 30 cancels the one at
    0; the calls at 30 and 200 are the ones that get through. *)
Lemma trailing_edge_scenario :
  pending mixed_world = []
  ∧ Forall2 (answers 100) (invoked mixed_world)
      [(30, "b"%string); (200, "c"%string)].
Proof.
  destruct (trailing_edge_runs steady 100
              [(0, "a"%string); (30, "b"%string); (200, "c"%string)]
              mixed_world)
    as [Hran|(c & _ & (tm & Hq & _) & _)].
  - apply mixed_world_history.
  - intros c _. reflexivity.
  - exact Hran.
  - vm_compute in Hq. discriminate Hq.
Defined.

Example mixed_world_invoked :
  invoked mixed_world = [(130, "b"%string); (300, "c"%string)].
Proof. reflexivity. Qed.

(** The same on the schedule that runs every timer when it is due, with two
    more calls, at 250 and at 500. *)
Example trailing_edge_schedule :
  invoked <$> scenario steady 100 2
                [(0, "a"%string); (30, "b"%string); (200, "c"%string);
                 (250, "d"%string); (500, "e"%string)] 600
  = Some [(130, "b"%string); (350, "d"%string); (600, "e"%string)].
Proof. vm_compute. reflexivity. Qed.

End DebounceProps.

(** ** Properties of the suggestion filter *)

Module AutocompleteProps.
Import JsString Autocomplete.

(** [indexOf] finds the text when it is there, at the first place where it
    starts, and answers [-1] only when it is nowhere. *)
Lemma indexOf_from_found (k : Z) (s v : list N) :
  (indexOf_from k s v = (-1)%Z ∧ ∀ pre post, s ≠ pre ++ v ++ post)
  ∨ ∃ pre post,
      s = pre ++ v ++ post
      ∧ indexOf_from k s v = (k + Z.of_nat (length pre))%Z
      ∧ ∀ pre' post', s = pre' ++ v ++ post' → (length pre ≤ length pre')%nat.
Proof.
  revert k. induction s as [|c s IH]; intros k; simpl.
  - destruct (decide (v `prefix_of` [])) as [[post Hp]|Hno].
    + right. exists [], post. split; [done|]. split; [simpl; lia|].
      intros; simpl; lia.
    + left. split; [done|]. intros pre post Heq.
      destruct pre; [|done]. apply Hno. by exists post.
  - destruct (decide (v `prefix_of` c :: s)) as [[post Hp]|Hno].
    + right. exists [], post. split; [done|]. split; [simpl; lia|].
      intros; simpl; lia.
    + destruct (IH (k + 1)%Z)
        as [[Hr Hnone] | (pre & post & -> & Hr & Hleast)].
      * left. split; [done|]. intros pre post Heq.
        destruct pre as [|c' pre].
        -- apply Hno. by exists post.
        -- injection Heq as -> Heq. by apply (Hnone pre post).
      * right. exists (c :: pre), post. split; [done|]. split.
        -- rewrite Hr. simpl. lia.
        -- intros pre' post' Heq. destruct pre' as [|c' pre'].
           ++ exfalso. apply Hno. by exists post'.
           ++ injection Heq as -> Heq. apply Hleast in Heq. simpl. lia.
Qed.

Lemma indexOf_contains (s v : list N) :
  (-1 < indexOf s v)%Z ↔ ∃ pre post, s = pre ++ v ++ post.
Proof.
  unfold indexOf.
  destruct (indexOf_from_found 0%Z s v)
    as [[Hr Hnone] | (pre & post & Heq & Hr & _)].
  - rewrite Hr. split; [lia|]. intros (pre & post & Heq).
    by destruct (Hnone pre post).
  - rewrite Hr. split; [by exists pre, post|lia].
Qed.

Section FilterFacts.
Variable toLowerCase : list N → list N.

(** X14. The filter goes through the suggestions one by one, in order, and
    decides each on its own: a suggestion whose lower-cased text contains
    the lower-cased input as a run of consecutive code units is kept where
    it stands, any other is dropped, and nothing else is added.  Of an
    empty list nothing is kept. *)
Theorem filtered_contains
    (suggestion : list N) (suggestions : list (list N)) (value : list N) :
  filtered toLowerCase [] value = []
  ∧ (((∃ pre post,
          toLowerCase suggestion = pre ++ toLowerCase value ++ post)
      ∧ filtered toLowerCase (suggestion :: suggestions) value
        = suggestion :: filtered toLowerCase suggestions value)
     ∨ ((∀ pre post,
           toLowerCase suggestion ≠ pre ++ toLowerCase value ++ post)
        ∧ filtered toLowerCase (suggestion :: suggestions) value
          = filtered toLowerCase suggestions value)).
Proof.
  split; [done|]. unfold filtered.
  destruct (decide (-1 < indexOf (toLowerCase suggestion)
                             (toLowerCase value))%Z) as [Hin|Hout].
  - left. split; [by apply indexOf_contains|]. by rewrite filter_cons_True.
  - right. split; [|by rewrite filter_cons_False].
    intros pre post Heq. apply Hout, indexOf_contains. by exists pre, post.
Qed.

(** X15. With nothing typed, every suggestion is kept: the empty string
    lower-cases to itself and is found at position 0 of any text. *)
Theorem filtered_empty_input (suggestions : list (list N)) :
  toLowerCase [] = [] →
  filtered toLowerCase suggestions [] = suggestions.
Proof.
  intros Hempty. unfold filtered. rewrite Hempty.
  induction suggestions as [|x l IH]; [done|].
  rewrite filter_cons_True; [by rewrite IH|].
  apply indexOf_contains. by exists [], (toLowerCase x).
Qed.

End FilterFacts.

Lemma filtered_empty_input_routes :
  filtered ascii_toLowerCase suggestions [] = suggestions.
Proof.
  apply (filtered_empty_input ascii_toLowerCase suggestions). reflexivity.
Defined.

Example filtered_routes_an :
  filtered ascii_toLowerCase suggestions (of_ascii "AN")
  = map of_ascii ["Banana"; "Mango"; "Orange"]%string.
Proof. vm_compute. reflexivity. Qed.

Example indexOf_examples :
  indexOf (of_ascii "banana") (of_ascii "an") = 1%Z
  ∧ indexOf (of_ascii "banana") (of_ascii "") = 0%Z
  ∧ indexOf (of_ascii "") (of_ascii "") = 0%Z
  ∧ indexOf (of_ascii "banana") (of_ascii "nab") = (-1)%Z.
Proof. repeat split; vm_compute; reflexivity. Qed.

End AutocompleteProps.

(** ** Properties of the tasks reducer *)

Module TasksReducerProps.
Import TasksReducer.

Section ReducerFacts.
Context {Id Body : Type}.
Variable strict_equal : Id → Id → bool.

Lemma filter_other_ids (i : Id) (l : list (task Id Body)) :
  (∀ t, t ∈ l → strict_equal (id t) i = false) →
  filter (λ t, negb (strict_equal (id t) i)) l = l.
Proof.
  induction l as [|t l IH]; [done|]. intros Hall.
  rewrite filter_cons_True by (rewrite (Hall t); [done|by left]).
  rewrite IH; [done|]. intros t' Ht'. apply Hall. by right.
Qed.

(** X16. Adding a task and then removing its id gives back the state as
    it was, when the id is [===] to itself (it is not [NaN]) and no task of
    the state has an id [===] to it. *)
Theorem remove_undoes_add (s : state Id Body) (t : task Id Body) :
  strict_equal (id t) (id t) = true →
  (∀ t', t' ∈ tasks s → strict_equal (id t') (id t) = false) →
  tasksReducer strict_equal
    (Some (tasksReducer strict_equal (Some s) (addTask t)))
    (removeTask (id t))
  = s.
Proof.
  intros Hself Hfresh. destruct s as [l]. unfold tasksReducer. simpl in *.
  rewrite filter_app, filter_other_ids by done.
  rewrite filter_cons_False by (rewrite Hself; intros Hf; exact Hf).
  by rewrite app_nil_r.
Qed.

End ReducerFacts.

Lemma remove_undoes_add_witness :
  tasksReducer number_strict_equal
    (Some (tasksReducer number_strict_equal
             (Some {| tasks := [{| id := int 1; body := "a"%string |}] |})
             (addTask {| id := int 2; body := "b"%string |})))
    (removeTask (int 2))
  = {| tasks := [{| id := int 1; body := "a"%string |}] |}.
Proof.
  apply (remove_undoes_add number_strict_equal
           {| tasks := [{| id := int 1; body := "a"%string |}] |}
           {| id := int 2; body := "b"%string |}).
  - reflexivity.
  - intros t' ->%list_elem_of_singleton. reflexivity.
Defined.

(** Without the freshness the removal takes the older task along. *)
Example remove_takes_older_task :
  tasksReducer number_strict_equal
    (Some (tasksReducer number_strict_equal
             (Some {| tasks := [{| id := int 2; body := "a"%string |}] |})
             (addTask {| id := int 2; body := "b"%string |})))
    (removeTask (int 2))
  = {| tasks := [] |}.
Proof. reflexivity. Qed.

(** A task whose id is [NaN] is never removed. *)
Example remove_keeps_NaN :
  tasksReducer number_strict_equal
    (Some (tasksReducer number_strict_equal
             (Some {| tasks := [] |})
             (addTask {| id := NaN; body := "b"%string |})))
    (removeTask NaN)
  = {| tasks := [{| id := NaN; body := "b"%string |}] |}.
Proof. reflexivity. Qed.

End TasksReducerProps.

(** ** Properties of the throttle of the notes *)

Module ThrottleProps.
Import Throttle.
Local Open Scope Z_scope.

Section ThrottleFacts.
Context {Args Err : Type}.
Variable fn : Args → Debounce.completion Err unit.
Variable limit : Z.

Lemma spaced_snoc (runs : list (Z * Args)) (r : Z * Args) :
  spaced limit runs →
  (∀ r0, last runs = Some r0 → limit ≤ r.1 - r0.1) →
  spaced limit (runs ++ [r]).
Proof.
  intros Hsp Hlast i r1 r2 H1 H2.
  destruct (decide (S i < length runs)%nat) as [Hlt|Hge].
  - rewrite lookup_app_l in H1 by lia. rewrite lookup_app_l in H2 by lia.
    by apply (Hsp i).
  - destruct (decide (S i = length runs)) as [Heq|Hne].
    + rewrite lookup_app_l in H1 by lia.
      rewrite lookup_app_r in H2 by lia.
      replace (S i - length runs)%nat with 0%nat in H2 by lia.
      injection H2 as <-. apply Hlast.
      rewrite last_lookup. by replace (pred (length runs)) with i by lia.
    + apply lookup_lt_Some in H2. rewrite length_app in H2. simpl in H2. lia.
Qed.

(** The bookkeeping behind the spacing: [lastRan] is the time of the last
    run, and that time is positive and not in the future. *)
Definition ran_last (w : world Args Err) : Prop :=
  0 < now w
  ∧ spaced limit (invoked w)
  ∧ match last (invoked w) with
    | None => lastRan w = None
    | Some r => lastRan w = Some r.1 ∧ 0 < r.1 ∧ r.1 ≤ now w
    end.

Lemma ran_last_run_fn (args : Args) (w : world Args Err) :
  (∀ a, fn a = Debounce.Normal tt) →
  ran_last w →
  (∀ r0, last (invoked w) = Some r0 → limit ≤ now w - r0.1) →
  ran_last (run_fn fn args w).2.
Proof.
  intros Hok (Hnow & Hsp & Hlast) Hfar. unfold run_fn. rewrite Hok.
  unfold ran_last. cbn [snd now invoked lastRan].
  split; [done|]. split; [by apply spaced_snoc|].
  rewrite last_snoc. simpl. repeat split; lia.
Qed.

Lemma ran_last_step (w w' : world Args Err) :
  (∀ a, fn a = Debounce.Normal tt) →
  step fn limit w w' → ran_last w → ran_last w'.
Proof.
  intros Hok Hstep Hw. destruct Hstep as [args w|t w Hin|T w].
  - unfold wrapper. destruct Hw as (Hnow & Hsp & Hlast).
    destruct (last (invoked w)) as [r|] eqn:El.
    + destruct Hlast as (Hran & Hpos & Hle). rewrite Hran.
      destruct (Z.eqb_spec r.1 0) as [|_]; [lia|].
      unfold ran_last, reschedule. cbn [snd now invoked lastRan].
      split; [done|]. split; [done|]. rewrite El. by repeat split.
    + rewrite Hlast. apply ran_last_run_fn; [done| |by rewrite El].
      split; [done|]. split; [done|]. by rewrite El.
  - assert (ran_last (dequeue t w)) as Hd by exact Hw.
    unfold fire, callback.
    destruct (lastRan (dequeue t w)) as [ran|] eqn:Er; [|done].
    destruct (Z.leb_spec limit (now (dequeue t w) - ran)) as [Hfar|]; [|done].
    pose proof (ran_last_run_fn (t_args t) (dequeue t w) Hok Hd) as Hrun.
    unfold run_fn in *. rewrite Hok in *. simpl in *. apply Hrun.
    intros r0 Hr0. destruct Hd as (_ & _ & Hlast). simpl in Hlast.
    rewrite Hr0 in Hlast. destruct Hlast as (Heq & _). simpl in Er.
    rewrite Er in Heq. injection Heq as ->. done.
  - destruct Hw as (Hnow & Hsp & Hlast). split; [simpl; lia|].
    split; [done|]. simpl. destruct (last (invoked w)); [|done].
    destruct Hlast as (? & ? & ?). repeat split; [done|done|lia].
Qed.

(** X18. With an action that returns normally and a clock that reads a
    positive time, any two consecutive runs of the action are at least
    [limit] apart, whenever the host chooses to run the timers. *)
Theorem throttle_spaces_runs (t0 : Z) (w : world Args Err) :
  (∀ a, fn a = Debounce.Normal tt) → 0 < t0 →
  reachable fn limit t0 w → spaced limit (invoked w).
Proof.
  intros Hok Ht0 Hr.
  enough (ran_last w) as (_ & H & _) by exact H.
  revert w Hr. apply rtc_ind_r.
  - split; [done|]. split; [|done]. intros i r1 r2 H1. inversion H1.
  - intros w1 w2 _ Hstep IH. by apply (ran_last_step w1 w2).
Qed.

(** X19. At most one timer is queued in every world the throttle can
    reach, whether the action returns or throws. *)
Theorem throttle_one_timer (t0 : Z) (w : world Args Err) :
  reachable fn limit t0 w → (length (pending w) ≤ 1)%nat.
Proof.
  intros Hr.
  enough (pending w = []
          ∨ ∃ t, pending w = [t] ∧ lastFunc w = Some (t_id t)) as Hw.
  { destruct Hw as [->|(t & -> & _)]; simpl; lia. }
  revert w Hr. apply rtc_ind_r; [by left|].
  intros w1 w2 _ Hstep IH. destruct Hstep as [args w1|t w1 Hin|T w1].
  - assert ((run_fn fn args w1).2.(pending) = pending w1
            ∧ (run_fn fn args w1).2.(lastFunc) = lastFunc w1) as [Hp Hf]
      by (unfold run_fn; by destruct (fn args)).
    unfold wrapper. destruct (lastRan w1) as [ran|].
    + destruct (ran =? 0); [by rewrite Hp, Hf|]. right. simpl.
      assert (match lastFunc w1 with
              | Some id => filter (λ t, t_id t ≠ id) (pending w1)
              | None => pending w1
              end = []) as ->.
      { destruct IH as [->|(t & -> & ->)]; [by destruct (lastFunc w1)|].
        by rewrite filter_cons_False by (intros H; by apply H). }
      by eexists.
    + by rewrite Hp, Hf.
  - left. assert (pending (dequeue t w1) = []) as Hd.
    { simpl. destruct IH as [Hp|(t' & Hp & _)]; rewrite Hp in *; [done|].
      apply list_elem_of_singleton in Hin as ->.
      by rewrite filter_cons_False by (intros H; by apply H). }
    unfold fire, callback.
    destruct (lastRan (dequeue t w1)) as [ran|]; [|done].
    destruct (limit <=? now (dequeue t w1) - ran); [|done].
    unfold run_fn. by destruct (fn (t_args t)).
  - done.
Qed.

End ThrottleFacts.

Lemma steady_run_reachable : reachable steady 1000 5000 steady_run.
Proof.
  unfold reachable, steady_run.
  eapply rtc_l; [apply (step_call steady 1000 "a"%string)|].
  eapply rtc_l; [apply (step_tick steady 1000 5300)|].
  eapply rtc_l; [apply (step_call steady 1000 "b"%string)|].
  eapply rtc_l; [apply (step_tick steady 1000 6000)|].
  apply rtc_once. apply step_fire. by left.
Qed.

Lemma throttle_spaces_runs_witness : spaced 1000 (invoked steady_run).
Proof.
  apply (throttle_spaces_runs steady 1000 5000 steady_run).
  - intros a. reflexivity.
  - lia.
  - apply steady_run_reachable.
Defined.

Lemma throttle_one_timer_witness : (length (pending steady_run) ≤ 1)%nat.
Proof.
  apply (throttle_one_timer steady 1000 5000 steady_run).
  apply steady_run_reachable.
Defined.

Example steady_run_invoked :
  invoked steady_run = [(5000, "a"%string); (6000, "b"%string)].
Proof. reflexivity. Qed.

(** When the action throws, [lastRan] is never set and every call runs the
    action at once: here twice within 300ms. *)
Example failing_run_invoked :
  invoked failing_run = [(5000, "a"%string); (5300, "b"%string)]
  ∧ lastRan failing_run = None.
Proof. split; reflexivity. Qed.

End ThrottleProps.

(** ** Properties of the photo selection *)

Module PhotoOrderProps.
Import JsString PhotoOrder.

Lemma click_click (i j : nat) (page : list thumbnail) :
  click i (click j page) = click j (click i page).
Proof.
  unfold click. destruct (decide (i = j)) as [->|Hne]; [done|].
  by apply list_alter_alter_ne.
Qed.

Lemma after_clicks_permutation (clicks1 clicks2 : list nat) :
  clicks1 ≡ₚ clicks2 →
  ∀ page, after_clicks page clicks1 = after_clicks page clicks2.
Proof.
  unfold after_clicks.
  induction 1 as [|k l1 l2 _ IH|i j l|l1 l2 l3 _ IH1 _ IH2]; intros page; simpl.
  - done.
  - apply IH.
  - by rewrite click_click.
  - by rewrite IH1, IH2.
Qed.

Lemma after_clicks_lookup
    (page : list thumbnail) (clicks : list nat) (k : nat) :
  after_clicks page clicks !! k
  = (λ t, if Nat.odd (times_clicked k clicks) then toggle t else t)
      <$> page !! k.
Proof.
  unfold after_clicks. revert page.
  induction clicks as [|i clicks IH]; intros page; simpl.
  - by destruct (page !! k).
  - rewrite IH. unfold click, times_clicked. rewrite list_lookup_alter, filter_cons.
    destruct (decide (i = k)) as [->|Hne]; [|done].
    destruct (page !! k) as [[d sel]|]; [|done]. simpl. f_equal.
    rewrite Nat.odd_succ, <- Nat.negb_odd.
    destruct (Nat.odd _); simpl; [|done].
    unfold toggle. simpl. by rewrite negb_involutive.
Qed.

Lemma after_clicks_imap (page : list thumbnail) (clicks : list nat) :
  after_clicks page clicks
  = imap (λ k t, if Nat.odd (times_clicked k clicks) then toggle t else t)
      page.
Proof.
  apply list_eq. intros k.
  by rewrite after_clicks_lookup, list_lookup_imap.
Qed.

Lemma selected_after_toggles {K} (ix : nat → K) (flip : nat → bool)
    (flip' : K → bool) (page : list thumbnail) :
  (∀ k, flip' (ix k) = flip k) →
  data_id <$> filter (λ t, selected t)
                (imap (λ k t, if flip k then toggle t else t) page)
  = (λ kt, data_id kt.2)
      <$> filter (λ kt, xorb (selected kt.2) (flip' kt.1))
            (imap (λ k t, (ix k, t)) page).
Proof.
  revert ix flip. induction page as [|t page IH]; intros ix flip Hix; [done|].
  rewrite !imap_cons, !filter_cons.
  specialize (IH (ix ∘ S) (flip ∘ S) (λ k, Hix (S k))).
  cbn [fst snd]. rewrite Hix.
  destruct t as [d sel].
  destruct (flip 0%nat), sel; simpl; (f_equal; exact IH) || exact IH.
Qed.

(** X20. What the order button writes after any series of clicks: the
    [data-id]s, joined by a comma and a space, of the thumbnails whose
    selection on the page as loaded differs from the parity of the number of
    clicks they got, in document order.  On a page loaded with nothing
    selected these are the thumbnails clicked an odd number of times; the
    order of the clicks never shows. *)
Theorem order_button_writes (page : list thumbnail) (clicks : list nat) :
  order_output (after_clicks page clicks)
  = join (of_ascii ", ")
      ((λ kt, data_id kt.2)
         <$> filter
               (λ kt, xorb (selected kt.2)
                        (Nat.odd (times_clicked kt.1 clicks)))
               (imap pair page)).
Proof.
  unfold order_output. rewrite after_clicks_imap.
  by rewrite (selected_after_toggles id
                (λ k, Nat.odd (times_clicked k clicks))
                (λ k, Nat.odd (times_clicked k clicks))).
Qed.

Example order_output_document_order :
  order_output (after_clicks three_photos [2; 0]%nat) = of_ascii "p1, p3".
Proof. vm_compute. reflexivity. Qed.



End PhotoOrderProps.
